(** * sparseld / graphld: LDGM precision operators, variant merging and
    block-parallel BLUP

    A shallow embedding of
    - [src/sparseld/io.py]  ([load_ldgm], [merge_alleles], [merge_snplists]),
    - [src/graphld/blup.py] ([BLUP.prepare_block_data],
      [BLUP.create_shared_memory], [BLUP.process_block], [BLUP.supervise],
      [BLUP.compute_blup]),
    together with models, written from the specification, of the modules the
    two files import but that are not among the sources
    ([precision.py], [likelihood.py], [multiprocessing.py]).

    Conventions.  numpy arrays and polars Series are [seq]s; a DataFrame is a
    list of rows; floating-point entries are modelled by the elements of a
    field, so that the algebraic content of the code (commutativity of [+],
    exact solves) is kept and rounding is left out; a Python exception is a
    [Raise] result. *)

From HB Require Import structures.
From Stdlib Require Import Ascii String Lia.
From mathcomp Require Import ssreflect ssrfun ssrbool eqtype ssrnat div seq.
From mathcomp Require Import choice fintype finfun bigop tuple.
From mathcomp Require Import order ssralg ssrnum ssrint rat matrix.

Set Implicit Arguments.
Unset Strict Implicit.
Unset Printing Implicit Defensive.

Import GRing.Theory Num.Theory.

(** Python strings are compared with [==]: give [string] its decidable
    equality. *)
HB.instance Definition _ := hasDecEq.Build string String.eqb_spec.

(** ** Exceptions *)

Inductive exn :=
  | ValueError
  | IndexError
  | FileNotFoundError
  | ColumnNotFoundError
  | KeyError
  | AssertionError
  | NumericalError.

Inductive result (T : Type) :=
  | Ok (x : T)
  | Raise (e : exn).

Arguments Ok {T} x.
Arguments Raise {T} e.

Definition bind {T U : Type} (r : result T) (k : T -> result U) : result U :=
  match r with
  | Ok x => k x
  | Raise e => Raise e
  end.

Notation "'let*' x ':=' r 'in' k" := (bind r (fun x => k))
  (at level 200, x name, r at level 100, k at level 200, right associativity).

Definition is_ok {T : Type} (r : result T) : bool :=
  if r is Ok _ then true else false.

(** ** numpy helpers *)

Module Np.

(** [str.lower] on the ASCII range, applied by [np.char.lower] to every
    element of an array. *)
Definition lower_ascii (c : ascii) : ascii :=
  let n := nat_of_ascii c in
  if (65 <= n) && (n <= 90) then ascii_of_nat (n + 32) else c.

Fixpoint lower (s : string) : string :=
  match s with
  | EmptyString => EmptyString
  | String c s' => String (lower_ascii c) (lower s')
  end.

(** [str(n)] for an integer: what [astype(str)] makes of an integer cell. *)
Definition digit (d : nat) : ascii := ascii_of_nat (48 + d).

Fixpoint str_of_nat_rec (fuel n : nat) (acc : string) : string :=
  match fuel with
  | 0 => acc
  | fuel'.+1 =>
      let acc' := String (digit (n %% 10)) acc in
      if n < 10 then acc' else str_of_nat_rec fuel' (n %/ 10) acc'
  end.

Definition str_of_nat (n : nat) : string := str_of_nat_rec n.+1 n EmptyString.

Definition str_of_int (z : int) : string :=
  match z with
  | Posz n => str_of_nat n
  | Negz n => String "-"%char (str_of_nat n.+1)
  end.

(** Elementwise [a == b] and [m1 & m2] on arrays of one length. *)
Definition eq_arr (T : eqType) (a b : seq T) : seq bool :=
  [seq x.1 == x.2 | x <- zip a b].

Definition and_arr (m1 m2 : seq bool) : seq bool :=
  [seq x.1 && x.2 | x <- zip m1 m2].

(** [a[m] = v] for a boolean mask [m] and a scalar [v]. *)
Definition mask_assign (T : Type) (m : seq bool) (v : T) (a : seq T) : seq T :=
  [seq if x.1 then v else x.2 | x <- zip m a].

(** [np.cumsum]: running sums. *)
Definition cumsum (s : seq nat) : seq nat := scanl addn 0 s.

(** [a[:-1]]. *)
Definition but_last (T : Type) (s : seq T) : seq T := take (size s).-1 s.

End Np.

(** ** [scipy.sparse]

    A sparse matrix is its shape and its stored entries in coordinate
    form; entries stored for one position add up, as in
    [csr_matrix((data, (i, j)))]. *)

Module Sparse.

Section Csr.

Variable F : fieldType.

Local Open Scope ring_scope.

Record csr_matrix := Csr {
  shape : nat * nat;
  entries : seq (nat * nat * F)
}.

(** [A[i, j]] *)
Definition get (A : csr_matrix) (i j : nat) : F :=
  foldr (fun e acc => if e.1 == (i, j) then e.2 + acc else acc) 0 (entries A).

(** [csr_matrix((value, (i, j)))] from the rows of an edge list: the shape
    is inferred from the largest indices; an empty list or a negative
    index is a [ValueError]. *)
Definition csr_matrix_coo (coo : seq (int * int * F)) : result csr_matrix :=
  if nilp coo then Raise ValueError
  else if has (fun e => (e.1.1 < 0) || (e.1.2 < 0)) coo then Raise ValueError
  else
    Ok (Csr ((foldr maxn 0%N [seq absz e.1.1 | e <- coo]).+1,
             (foldr maxn 0%N [seq absz e.1.2 | e <- coo]).+1)
            [seq (absz e.1.1, absz e.1.2, e.2) | e <- coo]).

(** [A.T] *)
Definition swap_entry (e : nat * nat * F) : nat * nat * F :=
  (e.1.2, e.1.1, e.2).

Definition transpose (A : csr_matrix) : csr_matrix :=
  Csr ((shape A).2, (shape A).1) [seq swap_entry e | e <- entries A].

(** [A + B]: a [ValueError] ("inconsistent shapes") unless the shapes
    agree. *)
Definition add (A B : csr_matrix) : result csr_matrix :=
  if shape A == shape B then Ok (Csr (shape A) (entries A ++ entries B))
  else Raise ValueError.

(** [A.diagonal()] *)
Definition diagonal (A : csr_matrix) : seq F :=
  [seq get A k k | k <- iota 0 (minn (shape A).1 (shape A).2)].

(** [A.setdiag(values, k=0)]: the first [len(values)] entries of the
    diagonal are replaced, the others are kept. *)
Definition setdiag (A : csr_matrix) (values : seq F) : csr_matrix :=
  let n := minn (minn (shape A).1 (shape A).2) (size values) in
  Csr (shape A)
      ([seq e <- entries A | ~~ ((e.1.1 == e.1.2) && (e.1.1 < n)%N)]
       ++ [seq (k, k, nth 0 values k) | k <- iota 0 n]).

(** The position a row kept by a boolean mask takes among the kept
    rows. *)
Definition new_index (mask : seq bool) (k : nat) : nat :=
  count id (take k mask).

(** [A[mask][:, mask]] for a boolean mask as long as the matrix has rows
    and columns; a mask of another length is an [IndexError]. *)
Definition getitem_mask (A : csr_matrix) (mask : seq bool)
    : result csr_matrix :=
  if (size mask != (shape A).1) || (size mask != (shape A).2)
  then Raise IndexError
  else
    Ok (Csr (count id mask, count id mask)
            [seq (new_index mask e.1.1, new_index mask e.1.2, e.2)
            | e <- entries A
            & nth false mask e.1.1 && nth false mask e.1.2]).

(** The stored entries are the same, up to their order, when rows and
    columns are exchanged. *)
Definition symmetric_entries (A : csr_matrix) : bool :=
  perm_eq [seq swap_entry e | e <- entries A] (entries A).

(** Two sparse matrices that hold the same matrix. *)
Definition same_matrix (A B : csr_matrix) : Prop :=
  shape A = shape B /\ forall i j, get A i j = get B i j.

End Csr.

End Sparse.

(** ** [sparseld/io.py] *)

Module Io.

Import Np.

(** A cell of a data frame: an integer or a string column entry. *)
Inductive cell :=
  | CInt (z : int)
  | CStr (s : string).

Definition cell_eqb (a b : cell) : bool :=
  match a, b with
  | CInt x, CInt y => x == y
  | CStr x, CStr y => x == y
  | _, _ => false
  end.

(** [Series.to_numpy().astype(str)]. *)
Definition astype_str (c : cell) : string :=
  match c with
  | CInt z => str_of_int z
  | CStr s => s
  end.

(** A row of a block's [variant_info] table: the columns of a [.snplist]
    file that the code reads, and the [original_index] column that
    [load_ldgm] adds. *)
Record variant := Variant {
  v_index : int;
  original_index : int;
  site_ids : string;
  chr : int;
  position : int;
  anc_alleles : string;
  deriv_alleles : string
}.

(** The summary statistics: named columns, and rows giving a cell for each
    column name. *)
Record DataFrame := Frame {
  columns : seq string;
  rows : seq (string -> cell)
}.

(** A row of [all_variants.join(sumstats, ..., how='inner')]: the left row
    with its [block_index], the right row, and the column added by
    [with_columns(phase)] (absent before). *)
Record merged_row := Merged {
  left : variant;
  block_index : nat;
  right : string -> cell;
  phase_col : option int
}.

(** The columns [variant_info] brings into the join, by name. *)
Definition left_columns : seq string :=
  [:: "index"; "original_index"; "site_ids"; "chr"; "position";
      "anc_alleles"; "deriv_alleles"; "block_index"]%string.

Definition left_get (name : string) (m : merged_row) : cell :=
  if name == "index"%string then CInt (v_index (left m))
  else if name == "original_index"%string then CInt (original_index (left m))
  else if name == "site_ids"%string then CStr (site_ids (left m))
  else if name == "chr"%string then CInt (chr (left m))
  else if name == "position"%string then CInt (position (left m))
  else if name == "anc_alleles"%string then CStr (anc_alleles (left m))
  else if name == "deriv_alleles"%string then CStr (deriv_alleles (left m))
  else CInt (Posz (block_index m)).

(** [merged[name]]: a column of the joined frame.  Left columns keep their
    names; a right column is found under its own name unless a left column
    has it. *)
Definition merged_get (cols : seq string) (name : string)
    : result (merged_row -> cell) :=
  if name \in left_columns then Ok (left_get name)
  else if name \in cols then Ok (fun m => right m name)
  else Raise ColumnNotFoundError.

(** [merge_alleles], lines 108-146. *)
Definition merge_alleles (anc_alleles deriv_alleles ref_alleles alt_alleles
    : seq cell) : seq int :=
  (* Make case-insensitive *)
  let anc := [seq lower (astype_str x) | x <- anc_alleles] in
  let der := [seq lower (astype_str x) | x <- deriv_alleles] in
  let ref := [seq lower (astype_str x) | x <- ref_alleles] in
  let alt := [seq lower (astype_str x) | x <- alt_alleles] in
  (* Check matches *)
  let exact_match := and_arr (eq_arr anc ref) (eq_arr der alt) in
  let flipped_match := and_arr (eq_arr anc alt) (eq_arr der ref) in
  (* Convert to phase *)
  let phase := nseq (size anc) (0 : int) in
  let phase := mask_assign exact_match (1 : int) phase in
  let phase := mask_assign flipped_match (-1 : int)%R phase in
  phase.

(** The phase of one row, as the four lower-cased alleles decide it. *)
Definition row_phase (a d r t : cell) : int :=
  let a := lower (astype_str a) in
  let d := lower (astype_str d) in
  let r := lower (astype_str r) in
  let t := lower (astype_str t) in
  if (a == t) && (d == r) then (-1)%R
  else if (a == r) && (d == t) then 1%R
  else 0%R.

(** *** [PrecisionOperator] objects, as [io.py] handles them

    [merge_snplists] assigns to a field of each operator it is passed, and
    the same object may stand several times in the list: operators live in
    a store and the list holds their addresses. *)

Section Operators.

Variable Mx : Type.

Record PrecisionOperator := Operator {
  matrix : Mx;
  variant_info : seq variant;
  _which_indices : option (seq int)
}.

Definition heap := seq PrecisionOperator.

(** [op.variant_info] *)
Definition get_variant_info (h : heap) (op : nat) : seq variant :=
  if onth h op is Some o then variant_info o else [::].

(** [op._which_indices = idx] *)
Fixpoint set_which_indices (h : heap) (op : nat) (idx : seq int) : heap :=
  match h, op with
  | [::], _ => [::]
  | o :: h', 0 => Operator (matrix o) (variant_info o) (Some idx) :: h'
  | o :: h', op'.+1 => o :: set_which_indices h' op' idx
  end.

(** [left.join(right, left_on=..., right_on=..., how='inner')], the rows
    of the left frame in order, each with the right rows it matches. *)
Definition inner_join (all_variants : seq (variant * nat))
    (sumstats : seq (string -> cell))
    (on : variant -> (string -> cell) -> bool) : seq merged_row :=
  flatten [seq [seq Merged l.1 l.2 r None | r <- sumstats & on l.1 r]
          | l <- all_variants].

(** [merged.with_columns(phase)] *)
Definition with_columns (merged : seq merged_row) (phase : seq int)
    : seq merged_row :=
  [seq Merged (left x.1) (block_index x.1) (right x.1) (Some x.2)
  | x <- zip merged phase].

(** [merge_snplists], lines 148-239.  The keyword arguments are passed
    explicitly; their defaults are in [merge_snplists_defaults]. *)
Definition merge_snplists (h : heap) (precision_ops : seq nat)
    (sumstats : DataFrame)
    (variant_id_col ref_allele_col alt_allele_col : string)
    (match_by_position : bool) (chr_col pos_col table_format : string)
    : result (seq (seq merged_row) * heap) :=
  (* Handle VCF format *)
  let vcf := lower table_format == "vcf"%string in
  let variant_id_col := if vcf then "ID"%string else variant_id_col in
  let ref_allele_col := if vcf then "A1"%string else ref_allele_col in
  let alt_allele_col := if vcf then "A2"%string else alt_allele_col in
  (* Validate inputs *)
  if (if match_by_position
      then ~~ all (fun col => col \in columns sumstats) [:: chr_col; pos_col]
      else variant_id_col \notin columns sumstats)
  then Raise ValueError
  else
  (* Concatenate all variant info *)
  let variant_infos := [seq get_variant_info h op | op <- precision_ops] in
  (* Add block index to each variant info *)
  let variant_infos :=
    [seq [seq (v, x.1) | v <- x.2]
    | x <- zip (iota 0 (size variant_infos)) variant_infos] in
  let all_variants := flatten variant_infos in
  (* Match variants *)
  let merged :=
    if match_by_position then
      inner_join all_variants (rows sumstats)
        (fun v r => cell_eqb (CInt (chr v)) (r chr_col)
                    && cell_eqb (CInt (position v)) (r pos_col))
    else
      inner_join all_variants (rows sumstats)
        (fun v r => cell_eqb (CStr (site_ids v)) (r variant_id_col)) in
  (* Check alleles if provided *)
  let* merged :=
    (if all (fun col => col \in columns sumstats)
            [:: ref_allele_col; alt_allele_col]
     then
       let* anc := merged_get (columns sumstats) "anc_alleles"%string in
       let* der := merged_get (columns sumstats) "deriv_alleles"%string in
       let* ref := merged_get (columns sumstats) ref_allele_col in
       let* alt := merged_get (columns sumstats) alt_allele_col in
       let phase :=
         merge_alleles (map anc merged) (map der merged)
                       (map ref merged) (map alt merged) in
       (* Add phase information and filter mismatches *)
       let merged := with_columns merged phase in
       Ok (mask [seq p != 0%R | p <- phase] merged)
     else Ok merged) in
  (* Split back into blocks and update which_indices *)
  Ok (foldl
        (fun (st : seq (seq merged_row) * heap) (x : nat * nat) =>
           let block_variants := [seq m <- merged | block_index m == x.1] in
           (rcons st.1 block_variants,
            set_which_indices st.2 x.2
              [seq v_index (left m) | m <- block_variants]))
        ([::], h)
        (zip (iota 0 (size precision_ops)) precision_ops)).

Definition merge_snplists_defaults (h : heap) (precision_ops : seq nat)
    (sumstats : DataFrame) :=
  merge_snplists h precision_ops sumstats "SNP" "A1" "A2" false "CHR" "POS" "".

(** What [op._which_indices = w] makes of an operator. *)
Definition assigned (w : seq int) (o : PrecisionOperator) : PrecisionOperator :=
  Operator (matrix o) (variant_info o) (Some w).

(** The loop of lines 230-237, on the store alone. *)
Definition assign_loop (W : nat -> seq int) (h : heap) (ops : seq (nat * nat))
    : heap :=
  foldl (fun h x => set_which_indices h x.2 (W x.1)) h ops.

End Operators.

(** *** [load_ldgm], lines 13-106

    The model starts at line 62, from the rows of the [.edgelist] file and
    of the [.snplist] file (whose [original_index] field is not read);
    finding the two files (lines 30-60), and the directory case, which
    calls [load_ldgm] on each file found, are outside it. *)

Section LoadLdgm.

Import Sparse.

Variable F : fieldType.

Local Open Scope ring_scope.

(** [rows = np.full(len(diag), -1); rows[mask] = np.arange(n_nonzero)] *)
Definition old_to_new (nonzero_mask : seq bool) : seq int :=
  [seq if nth false nonzero_mask k then Posz (new_index nonzero_mask k)
       else (-1)%R
  | k <- iota 0 (size nonzero_mask)].

(** [rows[x]] for a Python integer [x]: a negative index counts from the
    end, an index outside the array is an [IndexError]. *)
Definition np_getitem (rows : seq int) (x : int) : result int :=
  match x with
  | Posz k =>
      if (k < size rows)%N then Ok (nth 0 rows k) else Raise IndexError
  | Negz k =>
      if (k < size rows)%N then Ok (nth 0 rows (size rows - k.+1))
      else Raise IndexError
  end.

(** [with_columns([col('index').alias('original_index'),
    col('index').map_elements(lambda x: rows[x]).alias('index')])] *)
Fixpoint reindex_variants (rows : seq int) (variant_info : seq variant)
    : result (seq variant) :=
  match variant_info with
  | [::] => Ok [::]
  | v :: vs =>
      let* i := np_getitem rows (v_index v) in
      let* vs' := reindex_variants rows vs in
      Ok (Variant i (v_index v) (site_ids v) (chr v) (position v)
            (anc_alleles v) (deriv_alleles v) :: vs')
  end.

Definition load_ldgm (edgelist : seq (int * int * F))
    (snplist : seq variant) : result (PrecisionOperator (csr_matrix F)) :=
  (* Create sparse matrix *)
  let* matrix := csr_matrix_coo edgelist in
  (* Make matrix symmetric *)
  let matrix_t := transpose matrix in
  let diag_mask := [seq d != 0 | d <- diagonal matrix] in
  let diag_vals := diagonal matrix in
  let* matrix := add matrix matrix_t in
  let matrix := setdiag matrix [seq d / 2%:R | d <- diag_vals] in
  (* Verify diagonal values *)
  if diagonal matrix != [seq d / 2%:R | d <- diag_vals]
  then Raise AssertionError
  else
  (* Create mask for rows/cols with nonzeros on diagonal *)
  let diag := diagonal matrix in
  let nonzero_mask := [seq d != 0 | d <- diag] in
  (* Create mapping from old indices to new indices *)
  let rows := old_to_new nonzero_mask in
  (* Store original indices and update with new mapping *)
  let* variant_info := reindex_variants rows snplist in
  (* Filter out variants with no corresponding matrix row *)
  let variant_info := [seq v <- variant_info | 0 <= v_index v] in
  (* Subset matrix to rows/cols with nonzero diagonal *)
  let* matrix := getitem_mask matrix nonzero_mask in
  Ok (Operator matrix variant_info None).

End LoadLdgm.

(** *** The merge, block by block *)

(** The join condition of lines 200-215. *)
Definition join_on (match_by_position : bool)
    (variant_id_col chr_col pos_col : string)
    (v : variant) (r : string -> cell) : bool :=
  if match_by_position then
    cell_eqb (CInt (chr v)) (r chr_col) && cell_eqb (CInt (position v)) (r pos_col)
  else cell_eqb (CStr (site_ids v)) (r variant_id_col).

(** The cell [merged[name]] holds in a joined row. *)
Definition merged_cell (name : string) (m : merged_row) : cell :=
  if name \in left_columns then left_get name m else right m name.

(** The phase of a joined row. *)
Definition phase_of (ref_allele_col alt_allele_col : string) (m : merged_row)
    : int :=
  row_phase (CStr (anc_alleles (left m))) (CStr (deriv_alleles (left m)))
            (merged_cell ref_allele_col m) (merged_cell alt_allele_col m).

(** One block merged on its own: the block's variants joined with the
    summary statistics and, when the allele columns are there, the rows of
    nonzero phase, with their phase. *)
Definition block_merge (has_alleles : bool)
    (on : variant -> (string -> cell) -> bool)
    (ref_allele_col alt_allele_col : string)
    (i : nat) (vi : seq variant) (sumstats : seq (string -> cell))
    : seq merged_row :=
  let joined := inner_join [seq (v, i) | v <- vi] sumstats on in
  if has_alleles then
    [seq Merged (left m) (block_index m) (right m)
           (Some (phase_of ref_allele_col alt_allele_col m))
    | m <- joined & phase_of ref_allele_col alt_allele_col m != 0%R]
  else joined.


End Io.

(** *** [load_ldgm], lines 47-56: the search pattern of the [.snplist] file

    When no [snplist_path] is given, the file is looked for next to the
    edge list under a pattern made from the stem of the edge list's name
    ([filepath.stem], taken as given). *)

Module Paths.

(** [s.split('.')[0]]: what stands before the first dot. *)
Fixpoint split_dot_head (s : string) : string :=
  match s with
  | EmptyString => EmptyString
  | String c s' =>
      if Ascii.eqb c "."%char then EmptyString
      else String c (split_dot_head s')
  end.

(** ['.' in s] *)
Fixpoint has_dot (s : string) : bool :=
  if s is String c s' then Ascii.eqb c "."%char || has_dot s' else false.

(** [s.endswith(suffix)]: [suffix] is [s] or ends a tail of [s]. *)
Fixpoint endswith (s suffix : string) : bool :=
  (s == suffix)
  || (if s is String _ s' then endswith s' suffix else false).

(** [s[:-n]] for a positive [n]. *)
Definition drop_last (n : nat) (s : string) : string :=
  substring 0 (String.length s - n) s.

(** [f"{population}"]: [None] prints as ["None"]. *)
Definition format_option (population : option string) : string :=
  if population is Some p then p else "None"%string.

(** Lines 50-53, and the pattern of the [glob] of line 53. *)
Definition snplist_pattern (stem : string) (population : option string)
    : string :=
  (* Remove all extensions *)
  let pattern := split_dot_head stem in
  let suffix := String "."%char (format_option population) in
  let pattern :=
    if endswith pattern suffix
    then drop_last (String.length suffix) pattern else pattern in
  (pattern ++ "*.snplist")%string.

End Paths.

(** ** [graphld/multiprocessing.py]

    The module is imported by [blup.py] and is not among the sources: the
    definitions of this section follow sections 2 to 5 and 9 of the
    specification. *)

Module Multiprocessing.

Section SharedData.

(** The numeric type of the shared arrays, and its zero. *)
Variable V : Type.
Variable zero : V.

(** Modelled from the spec: [SharedData] (the SharedOutputBuffer), "a
    mapping from field name to fixed-length numeric array, total length
    fixed at creation time"; [SharedData({'beta': n})] allocates one array
    of [n] zeros per name. *)
Definition SharedData := seq (string * seq V).

Definition shared_data_new (sizes : seq (string * nat)) : SharedData :=
  [seq (kv.1, nseq kv.2 zero) | kv <- sizes].

(** [shared_data[key]] *)
Fixpoint getitem (sd : SharedData) (key : string) : result (seq V) :=
  match sd with
  | [::] => Raise KeyError
  | kv :: sd' => if kv.1 == key then Ok kv.2 else getitem sd' key
  end.

(** [a[start:stop] = value] for an array [a] and a slice inside it: the
    slice is overwritten and nothing else.  A value of another length than
    the slice, or a slice that leaves the array, is refused. *)
Definition write_slice (a : seq V) (start stop : nat) (value : seq V)
    : result (seq V) :=
  if (start <= stop <= size a) && (size value == stop - start)
  then Ok (take start a ++ value ++ drop stop a)
  else Raise ValueError.

(** Modelled from the spec: [shared_data[key, slice(start, stop)] = value],
    the write "by slice" of a worker into a named array. *)
Fixpoint setitem (sd : SharedData) (key : string) (start stop : nat)
    (value : seq V) : result SharedData :=
  match sd with
  | [::] => Raise KeyError
  | kv :: sd' =>
      if kv.1 == key then
        let* a := write_slice kv.2 start stop value in Ok ((kv.1, a) :: sd')
      else
        let* sd'' := setitem sd' key start stop value in Ok (kv :: sd'')
  end.

(** *** The worker pool *)

(** Modelled from the spec (4.2): the state machine of a worker process,
    [Idle -> ClaimingTask -> Loading -> Computing -> Writing -> Idle], then
    [Idle -> Terminated] once the task source is exhausted.  [Working b]
    stands for the phases from the claim of block [b] to its write;
    [Failed b] is a worker that raised in its computation of block [b], or
    terminated abnormally while it held it. *)
Inductive worker :=
  | Idle
  | Working (b : nat)
  | Terminated
  | Failed (b : nat).

Definition holds (b : nat) (w : worker) : bool :=
  match w with
  | Working b' | Failed b' => b' == b
  | _ => false
  end.

Definition is_failed (w : worker) : bool :=
  if w is Failed _ then true else false.

(** Modelled from the spec (4.2, 9): the state of a [WorkerManager] run,
    "an atomic cursor for task claiming and a fixed-size array of atomic
    completion flags, one per block", the worker processes, and the shared
    output buffer. *)
Record manager := Manager {
  cursor : nat;
  workers : seq worker;
  flags : seq bool;
  shared : SharedData
}.

Section Pool.

(** The per-block task: the callback applied to block [b] (its operator
    loaded, its data and the worker parameters bound), as a function of the
    shared buffer. *)
Variable task : nat -> SharedData -> result SharedData.

(** Number of blocks. *)
Variable n_blocks : nat.

(** Modelled from the spec (4.2): one step of one worker process [w].
    - [step_claim]: "a shared counter hands out block indices once each";
    - [step_write]: the callback "writes its result directly into its
      assigned slice of the SharedOutputBuffer; sets its completion flag";
    - [step_raise]: "an exception raised inside a worker's Computing phase
      is fatal to that worker";
    - [step_die]: the worker process "terminates abnormally";
    - [step_exit]: [Idle -> Terminated] when the task source is exhausted. *)
Inductive step : manager -> manager -> Prop :=
  | step_claim m w :
      nth Terminated (workers m) w = Idle -> w < size (workers m) ->
      cursor m < n_blocks ->
      step m (Manager (cursor m).+1
                (set_nth Terminated (workers m) w (Working (cursor m)))
                (flags m) (shared m))
  | step_write m w b sd :
      nth Terminated (workers m) w = Working b -> w < size (workers m) ->
      task b (shared m) = Ok sd ->
      step m (Manager (cursor m)
                (set_nth Terminated (workers m) w Idle)
                (set_nth false (flags m) b true) sd)
  | step_raise m w b e :
      nth Terminated (workers m) w = Working b -> w < size (workers m) ->
      task b (shared m) = Raise e ->
      step m (Manager (cursor m)
                (set_nth Terminated (workers m) w (Failed b))
                (flags m) (shared m))
  | step_die m w b :
      nth Terminated (workers m) w = Working b -> w < size (workers m) ->
      step m (Manager (cursor m)
                (set_nth Terminated (workers m) w (Failed b))
                (flags m) (shared m))
  | step_exit m w :
      nth Terminated (workers m) w = Idle -> w < size (workers m) ->
      n_blocks <= cursor m ->
      step m (Manager (cursor m)
                (set_nth Terminated (workers m) w Terminated)
                (flags m) (shared m)).

(** Executions: any interleaving of worker steps. *)
Inductive steps : manager -> manager -> Prop :=
  | steps_refl m : steps m m
  | steps_step m1 m2 m3 : steps m1 m2 -> step m2 m3 -> steps m1 m3.

(** Modelled from the spec (4.2): [WorkerManager.start_workers], "starts N
    worker processes (N = configured parallelism)". *)
Definition start_workers (num_processes : nat) (shared_data : SharedData)
    : manager :=
  Manager 0 (nseq num_processes Idle) (nseq n_blocks false) shared_data.

(** Modelled from the spec (4.2, 9): [WorkerManager.await_workers], the
    supervisor "blocks until every block's completion flag is set"; "source
    waits on flags only".  [await_workers m m'] holds when the call made in
    state [m] returns in state [m']; it raises nothing. *)
Definition await_workers (m m' : manager) : Prop :=
  steps m m' /\ all id (flags m').

(** Modelled from the spec (4.2): the serial execution mode, which "runs
    the same per-block callback sequentially on the current process/thread,
    writing into the same buffer abstraction". *)
Definition serial_loop (shared_data : SharedData) : result SharedData :=
  foldl (fun r b => let* sd := r in task b sd) (Ok shared_data)
        (iota 0 n_blocks).

End Pool.

(** *** Runs whose tasks write one slice each

    The blocks have lengths [lens]; the task of block [b] computes an array
    [value b] (or raises) without reading the buffer, and stores it in the
    ['beta'] array at the block's range. *)

Section SliceTasks.

Variable lens : seq nat.
Variable value : nat -> result (seq V).

Definition offset (b : nat) : nat := sumn (take b lens).

Definition slice_task (b : nat) (sd : SharedData) : result SharedData :=
  let* v := value b in
  setitem sd "beta" (offset b) (offset b + nth 0 lens b) v.

(** The content of block [b]'s range: zeros until the block's flag is set,
    the block's values from then on. *)
Definition segment (fl : seq bool) (b : nat) : seq V :=
  if nth false fl b then
    if value b is Ok v then v else nseq (nth 0 lens b) zero
  else nseq (nth 0 lens b) zero.

Definition buffer (fl : seq bool) : seq V :=
  flatten [seq segment fl b | b <- iota 0 (size lens)].

(** The flags after the first [k] blocks have been written. *)
Definition prefix_flags (k : nat) : seq bool :=
  [seq b < k | b <- iota 0 (size lens)].

(** The invariant of a run of [num_processes] workers: a block below the
    cursor is held by exactly one worker or has its flag set, a block at or
    above it by none; a flag is set only for a block whose task returned;
    the buffer holds the values of exactly the flagged blocks. *)
Definition pool_inv (num_processes : nat) (m : manager) : Prop :=
  [/\ cursor m <= size lens,
      size (flags m) = size lens /\ size (workers m) = num_processes,
      forall b, count (holds b) (workers m) + nth false (flags m) b
                = (b < cursor m),
      forall b, nth false (flags m) b -> is_ok (value b)
    & shared m = [:: ("beta"%string, buffer (flags m))]].

End SliceTasks.

End SharedData.

End Multiprocessing.

(** ** [sparseld/precision.py] and [sparseld/likelihood.py]

    Neither module is among the sources ([io.py], [blup.py] and the tests
    import them): the operator and the likelihood kernel are modelled from
    sections 3, 4.1 and 4.3 of the specification.  The matrix of a block
    with [N] rows is a dense [N x N] matrix over an ordered field; vectors
    cross the interface as sequences, so that a vector of the wrong length
    can be passed, and refused.  The factorization cache, which the
    specification requires to agree with the current diagonal update, is
    not represented: every solve uses the current effective matrix. *)

Module Precision.

Section Operator.

Variable F : realFieldType.

Local Open Scope ring_scope.

(** Modelled from the spec (3): the SparsePrecisionOperator, its [matrix],
    "optional per-full-row additive vector" [diagonal_update] and optional
    [active_index_mask], the rows of the underlying matrix that make up the
    active space, in the order of the active space. *)
Record PrecisionOperator (N : nat) := Operator {
  matrix : 'M[F]_N;
  diagonal_update : option 'rV[F]_N;
  active_index_mask : option (seq 'I_N)
}.

Section Methods.

Variable N : nat.
Implicit Types (op : PrecisionOperator N) (A : 'M[F]_N) (idx : seq 'I_N).

(** Modelled from the spec (3): "effective = matrix + diag(diagonal_update)". *)
Definition effective op : 'M[F]_N :=
  if diagonal_update op is Some d then matrix op + diag_mx d else matrix op.

(** Modelled from the spec (3): "when absent, active space = full space". *)
Definition active op : seq 'I_N :=
  if active_index_mask op is Some idx then idx else enum 'I_N.

Definition active_dimension op : nat := size (active op).

(** Modelled from the spec (4.1): [restrict(mask)], "a new operator sharing
    the same underlying matrix, but with a new active_index_mask". *)
Definition restrict op (mask : seq 'I_N) : PrecisionOperator N :=
  Operator (matrix op) (diagonal_update op) (Some mask).

(** A vector of the active space as a column of that length, "the active
    right-hand side embedded with zeros elsewhere", and the active rows of
    a full-space column. *)
Definition column (m : nat) (v : seq F) : 'cV[F]_m := \col_a nth 0 v a.

Definition embed idx (v : seq F) : 'cV[F]_N :=
  \col_i (if i \in idx then nth 0 v (index i idx) else 0).

Definition select idx (x : 'cV[F]_N) : seq F := [seq x i 0 | i <- idx].

(** The matrix as far as its first [k] rows and columns, the identity
    beyond: its determinant is the [k]-th leading principal minor. *)
Definition leading (k : nat) A : 'M[F]_N :=
  \matrix_(i, j) (if (i < k)%N && (j < k)%N then A i j else (i == j)%:R).

(** Modelled from the spec (4.1): the condition under which [factorize]
    succeeds, "raises a numerical error if the effective matrix is not
    positive definite (non-finite or non-positive pivot encountered)": the
    pivots of the decomposition of a symmetric matrix are positive when
    its leading principal minors are. *)
Definition positive_definite A : bool :=
  [forall k : 'I_N, 0 < \det (leading k.+1 A)].

Definition factorize op : result unit :=
  if positive_definite (effective op) then Ok tt else Raise NumericalError.

(** Modelled from the spec (4.1): [solve(vector)], "solve against the full
    factorization restricted to the active right-hand-side embedded with
    zeros elsewhere, then read off the active rows"; a vector whose length
    is not the active dimension is a shape error (the [ValueError] of
    [test_gaussian_likelihood_errors]). *)
Definition solve op (vector : seq F) : result (seq F) :=
  if size vector != active_dimension op then Raise ValueError
  else
    let* _ := factorize op in
    Ok (select (active op)
          (invmx (effective op) *m embed (active op) vector)).

(** The rows [r] and columns [c] of a matrix. *)
Definition submatrix (r c : seq 'I_N) A : 'M[F]_(size r, size c) :=
  \matrix_(a, b) A (tnth (in_tuple r) a) (tnth (in_tuple c) b).

(** The solve the spec forbids (4.1, 8): "drop inactive rows and solve the
    smaller system". *)
Definition naive_solve op (vector : seq F) : result (seq F) :=
  if size vector != active_dimension op then Raise ValueError
  else
    let idx := active op in
    let x := invmx (submatrix idx idx (effective op))
             *m column (size idx) vector in
    Ok [seq x a 0 | a <- enum 'I_(size idx)].

(** The inactive rows, and the Schur complement of the inactive block:
    the matrix whose system the active rows of a full solve satisfy. *)
Definition inactive idx : seq 'I_N := [seq i <- enum 'I_N | i \notin idx].

Definition schur_complement idx A : 'M[F]_(size idx) :=
  submatrix idx idx A
  - submatrix idx (inactive idx) A
    *m invmx (submatrix (inactive idx) (inactive idx) A)
    *m submatrix (inactive idx) idx A.

(** The selection matrix of a list of rows. *)
Definition selection idx : 'M[F]_(size idx, N) :=
  \matrix_(a, i) (tnth (in_tuple idx) a == i)%:R.

End Methods.

(** *** The likelihood kernel *)

Section Likelihood.

(** The logarithm and [log(2 * pi)], which an ordered field does not
    have. *)
Variable log : F -> F.
Variable log_2pi : F.

Variable N : nat.

(** Modelled from the spec (4.1): [log_determinant()], "the
    log-determinant of the effective active-space matrix, adjusted for any
    marginalization implied by the active mask (via Schur-complement
    bookkeeping)". *)
Definition log_determinant (op : PrecisionOperator N) : result F :=
  let* _ := factorize op in
  Ok (log (\det (schur_complement (active op) (effective op)))).

Definition dot (u v : seq F) : F :=
  foldr (fun x acc => x.1 * x.2 + acc) 0 (zip u v).

(** Modelled from the spec (4.3): [gaussian_likelihood(pz, operator)]
    ([log_likelihood] in the specification), "returns
    -1/2 (pz^T operator.solve(pz) + operator.log_determinant()
    + M log(2 pi)). Precondition: len(pz) == operator.active_dimension;
    else raises a shape error". *)
Definition gaussian_likelihood (pz : seq F) (op : PrecisionOperator N)
    : result F :=
  if size pz != active_dimension op then Raise ValueError
  else
    let* x := solve op pz in
    let* logdet := log_determinant op in
    Ok (- (1 / 2%:R)
        * (dot pz x + logdet + (active_dimension op)%:R * log_2pi)).

End Likelihood.

End Operator.

End Precision.

(** ** [graphld/blup.py] *)

Module Blup.

Import Np Multiprocessing.

Section BLUP.

(** Floating-point numbers and [0.0]. *)
Variable V : Type.
Variable zero : V.

(** Rows of the summary statistics, the LDGM metadata frame, and a block's
    [PrecisionOperator]. *)
Variables Row Metadata Ldgm : Type.

(** Arguments of [compute_blup] that only select the metadata. *)
Variables Path Populations Chromosomes : Type.

(** [graphld/io.py] is not among the sources ([src/sparseld/io.py] is an
    earlier module without these functions); what [blup.py] imports from
    it, and the metadata reader and block loader of [multiprocessing.py],
    are taken as given:
    - [partition_variants(metadata, sumstats)], one frame per block;
    - [read_ldgm_metadata], [load_ldgm] for block [b] of the metadata;
    - lines 66-88 of [process_block], which call the absent
      [merge_snplists] and the operator's [@], [update_matrix], [solve]
      and [del_factor]: from the block's operator, its summary statistics
      and [(sigmasq, sample_size, match_by_position)] they yield
      [sumstat_indices] and [beta], or raise. *)
Variable partition_variants : Metadata -> seq Row -> seq (seq Row).
Variable read_ldgm_metadata : Path -> Populations -> Chromosomes -> Metadata.
Variable load_ldgm : Metadata -> nat -> Ldgm.
Variable blup_solve :
  Ldgm -> seq Row -> V -> V -> bool -> result (seq nat * seq V).
Variable cpu_count : nat.

(** A Python value passed as [sigmasq]: [process_block] asserts that it is
    a float. *)
Inductive pyval :=
  | PyFloat (x : V)
  | PyInt (z : int).

Definition worker_params_t : Type := pyval * V * bool.
Definition block_data_t : Type := seq Row * nat.

(** [BLUP.prepare_block_data], lines 16-35. *)
Definition prepare_block_data (metadata : Metadata) (sumstats : seq Row)
    : seq block_data_t :=
  (* Partition annotations into blocks *)
  let sumstats_blocks := partition_variants metadata sumstats in
  let cumulative_num_variants :=
    cumsum [seq size df | df <- sumstats_blocks] in
  let cumulative_num_variants := 0 :: but_last cumulative_num_variants in
  zip sumstats_blocks cumulative_num_variants.

(** [BLUP.create_shared_memory], lines 37-50. *)
Definition create_shared_memory (metadata : Metadata)
    (block_data : seq block_data_t) : SharedData V :=
  let total_variants := sumn [seq size x.1 | x <- block_data] in
  shared_data_new zero [:: ("beta"%string, total_variants)].

(** [a[idx] = vals] for an integer index array: one value per index, every
    index inside the array; a later write to an index replaces an earlier
    one. *)
Definition index_assign (a : seq V) (idx : seq nat) (vals : seq V)
    : result (seq V) :=
  if size idx != size vals then Raise ValueError
  else if ~~ all (fun i => i < size a) idx then Raise IndexError
  else Ok (foldl (fun a x => set_nth zero a x.1 x.2) a (zip idx vals)).

(** [BLUP.process_block], lines 53-97.  [block_offset] and [flag] are
    arguments the body does not use. *)
Definition process_block (ldgm : Ldgm) (flag : nat)
    (shared_data : SharedData V) (block_offset : nat)
    (block_data : block_data_t) (worker_params : worker_params_t)
    : result (SharedData V) :=
  let: (sigmasq, sample_size, match_by_position) := worker_params in
  if sigmasq is PyFloat sigmasq then
    let: (sumstats, variant_offset) := block_data in
    let num_variants := size sumstats in
    let* sol := blup_solve ldgm sumstats sigmasq sample_size
                  match_by_position in
    let: (sumstat_indices, beta) := sol in
    (* Store results for variants that were successfully merged *)
    let beta_reshaped := nseq num_variants zero in
    let* beta_reshaped := index_assign beta_reshaped sumstat_indices beta in
    (* Update the shared memory array *)
    let block_slice := (variant_offset, variant_offset + num_variants) in
    setitem shared_data "beta" block_slice.1 block_slice.2 beta_reshaped
  else Raise AssertionError.

(** The array [beta_reshaped] that [process_block] stores for a block
    (lines 59-93), or the exception raised before the store. *)
Definition block_values (ldgm : Ldgm) (sumstats : seq Row)
    (worker_params : worker_params_t) : result (seq V) :=
  let: (sigmasq, sample_size, match_by_position) := worker_params in
  if sigmasq is PyFloat sigmasq then
    let* sol := blup_solve ldgm sumstats sigmasq sample_size
                  match_by_position in
    index_assign (nseq (size sumstats) zero) sol.1 sol.2
  else Raise AssertionError.

(** [BLUP.supervise], lines 99-114: [manager.start_workers()], then
    [manager.await_workers()], then [return shared_data['beta']].
    [supervise ... out] holds when the call returns or raises [out]. *)
Definition supervise (task : nat -> SharedData V -> result (SharedData V))
    (n_blocks num_processes : nat) (shared_data : SharedData V)
    (out : result (seq V)) : Prop :=
  let m := start_workers n_blocks num_processes shared_data in
  exists m', await_workers task n_blocks m m' /\
             out = getitem (shared m') "beta".

(** The task of block [b] in a run: the block's operator is loaded and
    the callback is called on it with the block's data. *)
Definition block_task (metadata : Metadata) (block_data : seq block_data_t)
    (worker_params : worker_params_t) (b : nat)
    (shared_data : SharedData V) : result (SharedData V) :=
  process_block (load_ldgm metadata b) b shared_data
    (nth 0 [seq x.2 | x <- block_data] b)
    (nth ([::], 0) block_data b) worker_params.

(** Modelled from the spec (2, 4.2): [ParallelProcessor.run], which BLUP
    inherits: "a driver computes a list of per-block input partitions,
    allocates a SharedOutputBuffer sized to the total output,
    BlockWorkerPool executes one task per block, supervisor blocks until
    all workers finish, final buffer is returned as the result". *)
Definition run (ldgm_metadata_path : Path) (populations : Populations)
    (chromosomes : Chromosomes) (worker_params : worker_params_t)
    (num_processes : option nat) (sumstats : seq Row)
    (out : result (seq V)) : Prop :=
  let metadata :=
    read_ldgm_metadata ldgm_metadata_path populations chromosomes in
  let block_data := prepare_block_data metadata sumstats in
  let shared_data := create_shared_memory metadata block_data in
  let num_processes :=
    if num_processes is Some n then n else cpu_count in
  supervise (block_task metadata block_data worker_params)
    (size block_data) num_processes shared_data out.

(** Modelled from the spec (4.2): [ParallelProcessor.run_serial], the
    serial execution mode; its result is the one [supervise] returns, the
    ['beta'] array. *)
Definition run_serial (ldgm_metadata_path : Path) (populations : Populations)
    (chromosomes : Chromosomes) (worker_params : worker_params_t)
    (sumstats : seq Row) : result (seq V) :=
  let metadata :=
    read_ldgm_metadata ldgm_metadata_path populations chromosomes in
  let block_data := prepare_block_data metadata sumstats in
  let shared_data := create_shared_memory metadata block_data in
  let* shared_data :=
    serial_loop (block_task metadata block_data worker_params)
      (size block_data) shared_data in
  getitem shared_data "beta".

(** [BLUP.compute_blup], lines 116-154. *)
Definition compute_blup (ldgm_metadata_path : Path) (sumstats : seq Row)
    (sigmasq : pyval) (sample_size : V) (populations : Populations)
    (chromosomes : Chromosomes) (num_processes : option nat)
    (run_in_serial : bool) (match_by_position : bool)
    (out : result (seq V)) : Prop :=
  if run_in_serial then
    out = run_serial ldgm_metadata_path populations chromosomes
            (sigmasq, sample_size, match_by_position) sumstats
  else
    run ldgm_metadata_path populations chromosomes
      (sigmasq, sample_size, match_by_position) num_processes sumstats out.

End BLUP.

End Blup.

(** ** A small instance of the driver

    Variants are given by their position; the metadata lists the position
    range [[chromStart, chromEnd)] of each block; [partition_variants]
    keeps, for each block, the rows inside its range; a block's solve
    merges the rows at even positions and gives them their position plus
    ten.  Numbers are natural numbers. *)

Module BlupExample.

Import Multiprocessing Blup.

Definition partition_variants (metadata : seq (nat * nat))
    (sumstats : seq nat) : seq (seq nat) :=
  [seq [seq pos <- sumstats | blk.1 <= pos < blk.2] | blk <- metadata].

Definition read_ldgm_metadata (path populations chromosomes : unit)
    : seq (nat * nat) :=
  [:: (0, 3); (3, 5)].

Definition load_ldgm (metadata : seq (nat * nat)) (b : nat) : nat := b.

Definition blup_solve (ldgm : nat) (sumstats : seq nat)
    (sigmasq sample_size : nat) (match_by_position : bool)
    : result (seq nat * seq nat) :=
  let idx := [seq i <- iota 0 (size sumstats) | ~~ odd (nth 0 sumstats i)] in
  Ok (idx, [seq nth 0 sumstats i + 10 | i <- idx]).

Definition compute_blup :=
  @Blup.compute_blup nat 0 nat (seq (nat * nat)) nat unit unit unit
    partition_variants read_ldgm_metadata load_ldgm blup_solve 4.

(** Six rows, of which the last lies in no block. *)
Definition sumstats : seq nat := [:: 0; 1; 2; 3; 4; 9].

Definition beta : seq nat := [:: 10; 0; 12; 0; 14].

(** The run of one worker on the two blocks, with a [sigmasq] that is
    not a float: the worker claims block 0 and its callback raises
    [AssertionError]. *)
Definition metadata : seq (nat * nat) := read_ldgm_metadata tt tt tt.

Definition block_data : seq (seq nat * nat) :=
  prepare_block_data partition_variants metadata sumstats.

Definition bad_params : worker_params_t nat := (PyInt nat 1, 1000, false).

Definition task : nat -> SharedData nat -> result (SharedData nat) :=
  block_task 0 load_ldgm blup_solve metadata block_data bad_params.

Definition started : manager nat :=
  start_workers (size block_data) 1 (create_shared_memory 0 metadata block_data).

Definition claimed : manager nat :=
  Manager 1 [:: Working 0] [:: false; false]
    [:: ("beta"%string, [:: 0; 0; 0; 0; 0])].

Definition raised : manager nat :=
  Manager 1 [:: Failed 0] [:: false; false]
    [:: ("beta"%string, [:: 0; 0; 0; 0; 0])].

End BlupExample.

(** ** A small LDGM

    Three variants; the edge list stores the upper triangle, and the last
    variant has a zero diagonal entry, so that [load_ldgm] drops its row
    and column.  Entries are rational numbers. *)

Module IoExample.

Import Io.

Local Open Scope ring_scope.

Definition edgelist : seq (int * int * rat) :=
  [:: (0, 0, 2%:R); (0, 1, -1); (1, 1, 2%:R); (2, 2, 0)].

Definition snplist : seq variant :=
  [:: Variant 0 0 "rs1" 1 100 "A" "C";
      Variant 1 0 "rs2" 1 200 "G" "T";
      Variant 2 0 "rs3" 1 300 "G" "A"].

(** Summary statistics with the default column names: [rs1] with its
    alleles swapped and in lower case, [rs2] with other alleles, and a
    variant no block has. *)
Definition sumstats_row (snp a1 a2 : string) (name : string) : cell :=
  if name == "SNP"%string then CStr snp
  else if name == "A1"%string then CStr a1
  else if name == "A2"%string then CStr a2
  else CInt 0.

Definition sumstats : DataFrame :=
  Frame [:: "SNP"; "A1"; "A2"]%string
        [:: sumstats_row "rs1" "c" "a"; sumstats_row "rs2" "A" "T";
            sumstats_row "rs9" "A" "C"].

(** Two operators in the store: the first two variants, and the third. *)
Definition store : heap unit :=
  [:: Operator tt (take 2 snplist) None; Operator tt (drop 2 snplist) None].

End IoExample.

(** ** A block of two coupled rows

    The matrix [[2, -1], [-1, 2]] with the first row active: the inactive
    second row is coupled to the first by the entry [-1]. *)

Module PrecisionExample.

Section Example.

Variable F : realFieldType.

Local Open Scope ring_scope.

Definition M2 : 'M[F]_2 := \matrix_(i, j) (if i == j then 2%:R else -1).

Definition op2 : Precision.PrecisionOperator F 2 :=
  Precision.Operator M2 None None.

Definition mask2 : seq 'I_2 := [:: ord0].

Definition rhs2 : seq F := [:: 6%:R].

(** The solution of the full system for the right-hand side [6, 0]. *)
Definition full2 : 'cV[F]_2 := \col_i (if i == ord0 then 4%:R else 2%:R).

End Example.

End PrecisionExample.

(** ** [load_ldgm] in terms of the edge list

    The notions in which the results on [load_ldgm] are stated: the row a
    Python index reads, the mask of line 84 as a function of the matrix of
    the edge list, and the edge lists [csr_matrix] and [matrix + matrix.T]
    accept. *)

Module LoadLdgm.

Import Sparse Io.

Section Rows.

Variable F : fieldType.

Local Open Scope ring_scope.

(** The position [a[x]] reads in an array of length [n], and whether
    there is one: a negative index counts from the end. *)
Definition python_index (n : nat) (x : int) : nat :=
  match x with
  | Posz k => k
  | Negz k => (n - k.+1)%N
  end.

Definition in_bounds (n : nat) (x : int) : bool :=
  match x with
  | Posz k => (k < n)%N
  | Negz k => (k < n)%N
  end.

(** [nonzero_mask] (line 84) for the matrix [A] of the edge list: by then
    the diagonal holds half of the diagonal of [A]. *)
Definition nonzero_mask (A : csr_matrix F) : seq bool :=
  [seq get A k k / 2%:R != 0 | k <- iota 0 (shape A).1].

(** The edge lists that pass lines 67-76: not empty, no negative index,
    and the largest row index is the largest column index. *)
Definition square_edgelist (edgelist : seq (int * int * F)) : bool :=
  [&& ~~ nilp edgelist,
      ~~ has (fun e => (e.1.1 < 0) || (e.1.2 < 0)) edgelist
    & foldr maxn 0%N [seq absz e.1.1 | e <- edgelist]
      == foldr maxn 0%N [seq absz e.1.2 | e <- edgelist]].

(** A row of the [.snplist] file as [load_ldgm] returns it when it is
    kept: the new index, and the index of the file as [original_index]. *)
Definition reindexed (mask : seq bool) (v : variant) : variant :=
  Variant (Posz (new_index mask (python_index (size mask) (v_index v))))
    (v_index v) (site_ids v) (chr v) (position v)
    (anc_alleles v) (deriv_alleles v).

End Rows.

End LoadLdgm.

(** ** The rows of a merged frame *)

Module MergeRows.

Import Io.

(** A variant of block [i] and a row of the summary statistics that
    [merge_snplists] keeps together: the join condition holds and, when the
    allele columns are there, the phase is not zero. *)
Definition kept_pair (has_alleles : bool)
    (on : variant -> (string -> cell) -> bool) (ref alt : string)
    (i : nat) (v : variant) (r : string -> cell) : bool :=
  on v r && (has_alleles ==> (phase_of ref alt (Merged v i r None) != 0%R)).

End MergeRows.

Section MergeAlleles.

Import Np Io.

Lemma merge_allelesE (anc der ref alt : seq cell) :
  size der = size anc -> size ref = size anc -> size alt = size anc ->
  merge_alleles anc der ref alt =
  [seq row_phase x.1.1 x.1.2 x.2.1 x.2.2 | x <- zip (zip anc der) (zip ref alt)].
Proof.
rewrite /merge_alleles /mask_assign /and_arr /eq_arr.
elim: anc der ref alt => [|a anc IH] [|d der] [|r ref] [|t alt] //= [s1] [s2] [s3].
by rewrite -IH.
Qed.

(** C10.  [merge_alleles] gives every row a phase in {-1, 0, 1}; the
    alleles are compared after lower-casing; the phase is -1 exactly when
    the flipped match holds (whether or not the exact match holds too,
    since the flipped assignment is the later one), 1 when only the exact
    match holds, and 0 otherwise.  In particular a row whose four alleles
    are equal up to case gets -1. *)
Theorem merge_alleles_phase (anc der ref alt : seq cell) (i : nat) :
  size der = size anc -> size ref = size anc -> size alt = size anc ->
  i < size anc ->
  let phase := nth 0%R (merge_alleles anc der ref alt) i in
  let a := lower (astype_str (nth (CInt 0) anc i)) in
  let d := lower (astype_str (nth (CInt 0) der i)) in
  let r := lower (astype_str (nth (CInt 0) ref i)) in
  let t := lower (astype_str (nth (CInt 0) alt i)) in
  let exact_match := (a == r) && (d == t) in
  let flipped_match := (a == t) && (d == r) in
  [/\ size (merge_alleles anc der ref alt) = size anc,
      phase \in [:: (-1)%R; 0%R; 1%R],
      phase = (if flipped_match then (-1)%R
               else if exact_match then 1%R else 0%R)
    & exact_match && flipped_match -> phase = (-1)%R].
Proof.
move=> sd sr st lt_i /=.
rewrite merge_allelesE // size_map !size_zip sd sr st !minnn.
have sz: i < size (zip (zip anc der) (zip ref alt)).
  by rewrite !size_zip sd sr st !minnn.
rewrite (nth_map (CInt 0, CInt 0, (CInt 0, CInt 0))) // !nth_zip ?size_zip ?sd ?sr ?st //=.
rewrite /row_phase.
split=> //.
- by case: ifP => // _; case: ifP.
- by case/andP=> _ ->.
Qed.

(** The test-like instance of C10: ["A"/"a"] against ["a"/"A"] is both an
    exact and a flipped match. *)
Lemma merge_alleles_phase_witness :
  nth 0%R (merge_alleles [:: CStr "A"] [:: CStr "a"] [:: CStr "a"] [:: CStr "A"]) 0
  = (-1)%R.
Proof.
have [] // := @merge_alleles_phase [:: CStr "A"] [:: CStr "a"] [:: CStr "a"]
                [:: CStr "A"] 0 erefl erefl erefl isT.
Defined.

End MergeAlleles.
Section MergeSnplists.

Import Np Io.

Variable Mx : Type.

Notation heap := (heap Mx).
Notation op_t := (PrecisionOperator Mx).

Lemma onth_set_which_indices (h : heap) (op : nat) (w : seq int) (r : nat) :
  onth (set_which_indices h op w) r =
  if r == op then omap (assigned w) (onth h r) else onth h r.
Proof.
elim: h op r => [|o h IH] [|op] [|r] //=; first by case: ifP.
by rewrite IH.
Qed.

Lemma size_set_which_indices (h : heap) (op : nat) (w : seq int) :
  size (set_which_indices h op w) = size h.
Proof. by elim: h op => [|o h IH] [|op] //=; rewrite IH. Qed.

Lemma zip_iota_rcons (k : nat) (ops : seq nat) (r : nat) :
  zip (iota k (size ops).+1) (rcons ops r) =
  rcons (zip (iota k (size ops)) ops) (k + size ops, r).
Proof.
rewrite -addn1 iotaD /= -!cats1.
by rewrite zip_cat ?size_iota.
Qed.

Lemma size_assign_loop W (h : heap) ops : size (assign_loop W h ops) = size h.
Proof.
elim: ops h => [|x ops IH] h //=.
by rewrite /assign_loop /= -/(assign_loop _ _ _) IH size_set_which_indices.
Qed.

Lemma assign_loop_frame W (h : heap) (k : nat) (ops : seq nat) (r : nat) :
  r \notin ops ->
  onth (assign_loop W h (zip (iota k (size ops)) ops)) r = onth h r.
Proof.
elim/last_ind: ops => [|ops r' IH] //.
rewrite mem_rcons inE negb_or => /andP[ne_r notin].
rewrite size_rcons zip_iota_rcons /assign_loop -cats1 foldl_cat /= -/(assign_loop _ _ _).
by rewrite onth_set_which_indices (negbTE ne_r) IH.
Qed.

Lemma assign_loop_fields W (h : heap) (ops : seq (nat * nat)) (r : nat) :
  omap (assigned [::]) (onth (assign_loop W h ops) r) =
  omap (assigned [::]) (onth h r).
Proof.
elim: ops h => [|x ops IH] h //=.
rewrite /assign_loop /= -/(assign_loop _ _ _) IH onth_set_which_indices.
by case: ifP => // _; case: (onth h r).
Qed.

Lemma assign_loop_last W (h : heap) (k : nat) (ops : seq nat) (i : nat) :
  i < size ops ->
  (forall j, i < j < size ops -> nth 0 ops j != nth 0 ops i) ->
  onth (assign_loop W h (zip (iota k (size ops)) ops)) (nth 0 ops i) =
  omap (assigned (W (k + i))) (onth h (nth 0 ops i)).
Proof.
elim/last_ind: ops i => [|ops r IH] i //.
rewrite size_rcons ltnS leq_eqVlt => /orP[/eqP ->|lt_i] last_i.
  rewrite nth_rcons ltnn eqxx zip_iota_rcons /assign_loop -cats1 foldl_cat /=.
  rewrite -/(assign_loop _ _ _) onth_set_which_indices eqxx.
  have := assign_loop_fields W h (zip (iota k (size ops)) ops) r.
  case: (onth _ r) => [o|]; case: (onth h r) => [o'|] //= [em ev].
  by rewrite /assigned em ev.
have ne_r : nth 0 (rcons ops r) i != r.
  have := last_i (size ops); rewrite lt_i ltnSn /= nth_rcons ltnn eqxx.
  by rewrite eq_sym; apply.
rewrite zip_iota_rcons /assign_loop -cats1 foldl_cat /= -/(assign_loop _ _ _).
rewrite onth_set_which_indices (negbTE ne_r) nth_rcons lt_i.
apply: IH => // j /andP[lt_ij lt_j].
have := last_i j; rewrite lt_ij ltnS (ltnW lt_j) /=.
by rewrite !nth_rcons lt_j lt_i; apply.
Qed.

Lemma inner_join_cat (L1 L2 : seq (variant * nat)) ss on :
  inner_join (L1 ++ L2) ss on = inner_join L1 ss on ++ inner_join L2 ss on.
Proof. by rewrite /inner_join map_cat flatten_cat. Qed.

Lemma inner_join_flatten (LL : seq (seq (variant * nat))) ss on :
  inner_join (flatten LL) ss on = flatten [seq inner_join L ss on | L <- LL].
Proof.
by elim: LL => [|L LL IH] //=; rewrite inner_join_cat IH.
Qed.

Lemma inner_join_block_index (i : nat) (vi : seq variant) ss on :
  all (fun m => block_index m == i) (inner_join [seq (v, i) | v <- vi] ss on).
Proof.
rewrite /inner_join; elim: vi => [|v vi IH] //=.
rewrite all_cat IH andbT all_map (@eq_all _ _ predT) ?all_predT // => r /=.
exact: eqxx.
Qed.

Lemma block_merge_block_index has_alleles on ref alt i vi ss :
  all (fun m => block_index m == i) (block_merge has_alleles on ref alt i vi ss).
Proof.
rewrite /block_merge; case: has_alleles; last exact: inner_join_block_index.
have := inner_join_block_index i vi ss on.
elim: (inner_join _ _ _) => [|m s IH] //= /andP[m_i /IH all_s].
by case: ifP => _ //=; rewrite m_i.
Qed.

Lemma phase_filterE (ref alt : string) (merged : seq merged_row) :
  let ph := [seq phase_of ref alt m | m <- merged] in
  mask [seq p != 0%R | p <- ph] (with_columns merged ph) =
  [seq Merged (left m) (block_index m) (right m) (Some (phase_of ref alt m))
  | m <- merged & phase_of ref alt m != 0%R].
Proof.
rewrite /with_columns /=; elim: merged => [|m merged IH] //=.
by case: ifP => _; rewrite IH.
Qed.

Lemma merged_getE (cols : seq string) (name : string) :
  (name \in left_columns) || (name \in cols) ->
  merged_get cols name = Ok (merged_cell name).
Proof.
by rewrite /merged_get /merged_cell; case: ifP => [in_l _|_ /= ->].
Qed.

Lemma filter_none (T : Type) (p q : pred T) (s : seq T) :
  (forall x, q x -> p x = false) -> all q s -> [seq x <- s | p x] = [::].
Proof. by move=> qp; elim: s => //= x s IH /andP[/qp -> /IH]. Qed.

Lemma blocks_ge (B : nat -> seq variant -> seq merged_row) (k : nat)
    (vis : seq (seq variant)) :
  (forall j vi, all (fun m => block_index m == j) (B j vi)) ->
  all (fun m => k <= block_index m)
      (flatten [seq B x.1 x.2 | x <- zip (iota k (size vis)) vis]).
Proof.
move=> B_idx; elim: vis k => [|vi vis IH] k //=.
rewrite all_cat; apply/andP; split.
  by apply: sub_all (B_idx k vi) => m /eqP ->.
by apply: sub_all (IH k.+1) => m /ltnW.
Qed.

Lemma filter_block (B : nat -> seq variant -> seq merged_row) (k : nat)
    (vis : seq (seq variant)) (i : nat) :
  (forall j vi, all (fun m => block_index m == j) (B j vi)) ->
  i < size vis ->
  [seq m <- flatten [seq B x.1 x.2 | x <- zip (iota k (size vis)) vis]
  | block_index m == k + i] = B (k + i) (nth [::] vis i).
Proof.
move=> B_idx; elim: vis k i => [|vi vis IH] k [|i] //= lt_i.
- rewrite filter_cat addn0 (all_filterP (B_idx k vi)).
  rewrite (filter_none _ (blocks_ge k.+1 vis B_idx)) ?cats0 // => m.
  by rewrite ltn_neqAle eq_sym => /andP[/negbTE].
- rewrite filter_cat addnS -addSn IH // (filter_none _ (B_idx k vi)) // => m.
  by move/eqP->; rewrite addSn -addnS -[X in X == _]addn0 eqn_add2l.
Qed.


Lemma merge_loopE (merged : seq merged_row) (ops : seq (nat * nat))
    (acc : seq (seq merged_row)) (h : heap) :
  foldl
    (fun (st : seq (seq merged_row) * heap) (x : nat * nat) =>
       let block_variants := [seq m <- merged | block_index m == x.1] in
       (rcons st.1 block_variants,
        set_which_indices st.2 x.2
          [seq v_index (left m) | m <- block_variants]))
    (acc, h) ops =
  (acc ++ [seq [seq m <- merged | block_index m == x.1] | x <- ops],
   assign_loop
     (fun i => [seq v_index (left m) | m <- merged & block_index m == i])
     h ops).
Proof.
elim: ops acc h => [|x ops IH] acc h /=; first by rewrite cats0.
by rewrite IH -cats1 -catA.
Qed.

Lemma zip_columnsE (T : Type) (F : cell * cell * (cell * cell) -> T)
    (a d r t : merged_row -> cell) (s : seq merged_row) :
  [seq F x | x <- zip (zip (map a s) (map d s)) (zip (map r s) (map t s))] =
  [seq F (a m, d m, (r m, t m)) | m <- s].
Proof. by elim: s => [|m s IH] //=; rewrite IH. Qed.

(** The frame after the allele check of lines 217-227, block by block. *)
Lemma checked_blocksE (sumstats : DataFrame) (ref alt : string)
    (on : variant -> (string -> cell) -> bool) (vis : seq (seq variant))
    (merged : seq merged_row) :
  merged =
    inner_join
      (flatten [seq [seq (v, x.1) | v <- x.2]
               | x <- zip (iota 0 (size vis)) vis]) (rows sumstats) on ->
  (if all (fun col => col \in columns sumstats) [:: ref; alt]
   then
     let* anc := merged_get (columns sumstats) "anc_alleles"%string in
     let* der := merged_get (columns sumstats) "deriv_alleles"%string in
     let* ref := merged_get (columns sumstats) ref in
     let* alt := merged_get (columns sumstats) alt in
     let phase :=
       merge_alleles (map anc merged) (map der merged)
                     (map ref merged) (map alt merged) in
     let merged := with_columns merged phase in
     Ok (mask [seq p != 0%R | p <- phase] merged)
   else Ok merged) =
  Ok (flatten
        [seq block_merge
               ((ref \in columns sumstats) && (alt \in columns sumstats))
               on ref alt x.1 x.2 (rows sumstats)
        | x <- zip (iota 0 (size vis)) vis]).
Proof.
rewrite inner_join_flatten -map_comp => mergedE.
rewrite /= andbT /block_merge.
case ha: (_ && _); last by rewrite mergedE.
have /andP[ref_in alt_in] := ha.
rewrite (@merged_getE _ ref) ?ref_in ?orbT // (@merged_getE _ alt) ?alt_in ?orbT //=.
rewrite merge_allelesE ?size_map // zip_columnsE.
rewrite -/(phase_of ref alt) (phase_filterE ref alt) mergedE.
by rewrite filter_flatten map_flatten -!map_comp.
Qed.


End MergeSnplists.

Section MergeSnplistsExample.

Import Io IoExample.

Local Open Scope ring_scope.

(** Only [rs1] merges: its alleles are swapped, so its phase is [-1]; the
    alleles of [rs2] do not match, and the second block keeps no row. *)
Lemma example_merge_snplists :
  (if merge_snplists_defaults store [:: 0; 1] sumstats is Ok (blocks, h)
   then ([seq size b | b <- blocks], [seq _which_indices o | o <- h],
         [seq [seq phase_col r | r <- b] | b <- blocks])
   else ([::], [::], [::]))
  = ([:: 1; 0], [:: Some [:: 0 : int]; Some [::]],
     [:: [:: Some (-1 : int)]; [::]]).
Proof. by vm_compute. Qed.

End MergeSnplistsExample.

Section SparseFacts.

Import Sparse.

Variable F : fieldType.

Local Open Scope ring_scope.

Implicit Types (A B : csr_matrix F) (e : nat * nat * F).

Lemma getE A i j : get A i j = \sum_(e <- entries A | e.1 == (i, j)) e.2.
Proof.
rewrite /get; elim: (entries A) => [|e s IH] /=; first by rewrite big_nil.
by rewrite big_cons IH.
Qed.

Lemma swap_entryK : involutive (@swap_entry F).
Proof. by case=> [[i j] x]. Qed.

Lemma get_transpose A i j : get (transpose A) i j = get A j i.
Proof.
rewrite !getE /= big_map; apply: eq_bigl => -[[i' j'] x] /=.
by rewrite !xpair_eqE andbC.
Qed.

Lemma get_symmetric A i j : symmetric_entries A -> get A i j = get A j i.
Proof.
move=> sym; rewrite -get_transpose !getE /=.
exact: perm_big.
Qed.

Lemma symmetric_same_transpose A :
  (shape A).1 = (shape A).2 -> symmetric_entries A ->
  same_matrix A (transpose A).
Proof.
move=> sq sym; split=> [|i j].
  by rewrite /=; case: (shape A) sq => r c /= ->.
by rewrite get_transpose; apply: get_symmetric.
Qed.

Lemma add_transpose_symmetric A B :
  add A (transpose A) = Ok B ->
  [/\ shape B = shape A, (shape A).1 = (shape A).2 & symmetric_entries B].
Proof.
rewrite /add /=; case: eqP => // sh [<-] /=; split=> //.
  by case: (shape A) sh => r c /= [].
rewrite /symmetric_entries /= map_cat -map_comp.
rewrite (@eq_map _ _ (swap_entry (F:=F) \o swap_entry (F:=F)) id) ?map_id.
  by move=> e; apply: swap_entryK.
by rewrite perm_catC.
Qed.

Lemma map_swap_filter (p : pred (nat * nat * F)) (s : seq (nat * nat * F)) :
  (forall e, p (swap_entry e) = p e) ->
  [seq swap_entry e | e <- s & p e] =
  [seq e <- [seq swap_entry e | e <- s] | p e].
Proof.
move=> p_sym; rewrite filter_map; congr map.
by apply: eq_filter => e; rewrite /= p_sym.
Qed.

Lemma setdiag_symmetric A (values : seq F) :
  symmetric_entries A -> symmetric_entries (setdiag A values).
Proof.
rewrite /symmetric_entries /= map_cat => sym.
rewrite -[X in _ ++ X]map_comp; apply: perm_cat; last exact: perm_refl.
rewrite map_swap_filter; last exact: perm_filter.
by case=> [[i j] x] /=; rewrite eq_sym; case: eqP => // ->.
Qed.

Lemma getitem_mask_symmetric A B (mask : seq bool) :
  getitem_mask A mask = Ok B -> symmetric_entries A ->
  (shape B).1 = (shape B).2 /\ symmetric_entries B.
Proof.
rewrite /getitem_mask; case: ifP => // _ [<-] sym; split=> //.
rewrite /symmetric_entries /= -map_comp.
rewrite (@eq_map _ _ _
  ((fun e => (new_index mask e.1.1, new_index mask e.1.2, e.2)) \o
   swap_entry (F:=F))) //.
rewrite map_comp; apply: perm_map.
rewrite map_swap_filter; last exact: perm_filter.
by case=> [[i j] x] /=; rewrite andbC.
Qed.

(** The check of line 80 never fails. *)
Lemma diagonal_setdiag A (values : seq F) :
  size values = minn (shape A).1 (shape A).2 ->
  diagonal (setdiag A values) = values.
Proof.
move=> sz; apply: (@eq_from_nth _ 0); rewrite size_map size_iota //= => k lt_k.
rewrite (nth_map 0%N) ?size_iota // nth_iota // add0n getE /= sz minnn.
rewrite big_cat /= big_filter_cond big_map.
have -> : \sum_(i <- entries A |
            ~~ ((i.1.1 == i.1.2) &&
                (i.1.1 < minn (shape A).1 (shape A).2)%N) &&
            (i.1 == (k, k))) i.2 = 0.
  apply: big1 => -[[i j] x] /= /andP[ndiag /eqP[ei ej]].
  by move: ndiag; rewrite ei ej eqxx lt_k.
rewrite add0r (eq_bigl (pred1 k)) => [j|]; first by rewrite /= xpair_eqE andbb.
rewrite -big_filter filter_pred1_uniq ?iota_uniq ?mem_iota //.
by rewrite big_seq1.
Qed.

End SparseFacts.

Section LoadLdgmFacts.

Import Sparse Io.

Variable F : fieldType.

Local Open Scope ring_scope.

(** C8.  The matrix of the operator [load_ldgm] returns is square and
    equal to its transpose: forming [matrix + matrix.T], resetting the
    diagonal and keeping the rows and columns with a nonzero diagonal
    entry each leave the matrix symmetric. *)
Theorem load_ldgm_symmetric (edgelist : seq (int * int * F))
    (snplist : seq variant) (op : PrecisionOperator (csr_matrix F)) :
  load_ldgm edgelist snplist = Ok op ->
  [/\ (shape (matrix op)).1 = (shape (matrix op)).2,
      same_matrix (matrix op) (transpose (matrix op))
    & forall i j, get (matrix op) i j = get (matrix op) j i].
Proof.
rewrite /load_ldgm.
case: (csr_matrix_coo _) => [A|] //=.
case addA: (add _ _) => [B|] //=.
have [shB sqA symB] := add_transpose_symmetric addA.
case: ifP => // _.
case: (reindex_variants _ _) => [vi|] //=.
case gm: (getitem_mask _ _) => [C|] //= [<-] /=.
have [sqC symC] := getitem_mask_symmetric gm (setdiag_symmetric _ symB).
split=> // [|i j]; first exact: symmetric_same_transpose.
exact: get_symmetric.
Qed.

End LoadLdgmFacts.

Section LoadLdgmExample.

Import Sparse Io IoExample.

Lemma example_load_ldgm :
  if load_ldgm edgelist snplist is Ok op
  then (shape (matrix op) == (2, 2)%N)
       && ([seq v_index v | v <- variant_info op] == [:: 0; 1]%R)
  else false.
Proof. by vm_compute. Qed.

Lemma load_ldgm_symmetric_witness :
  exists op, [/\ load_ldgm edgelist snplist = Ok op,
                 shape (matrix op) = (2, 2)%N
               & same_matrix (matrix op) (transpose (matrix op))].
Proof.
move: example_load_ldgm (@load_ldgm_symmetric _ edgelist snplist).
move: (load_ldgm edgelist snplist) => [op|e]; last by move=> ff; case: notF.
move=> /andP[/eqP sh _] sym; exists op.
by have [_ same _] := sym op erefl; split; [exact: erefl | exact: sh | exact: same].
Defined.

End LoadLdgmExample.

(** ** The precision operator: restricted solves and the likelihood *)

Section PrecisionFacts.

Import Precision.

Variable F : realFieldType.
Variable N : nat.

Local Open Scope ring_scope.

Implicit Types (A : 'M[F]_N) (idx r c : seq 'I_N).

Lemma sum_indicl (n : nat) (i0 : 'I_n) (f : 'I_n -> F) :
  \sum_i (i0 == i)%:R * f i = f i0.
Proof.
rewrite (bigD1 i0) //= eqxx mul1r big1 ?addr0 // => i ne_i.
by rewrite eq_sym (negbTE ne_i) mul0r.
Qed.

Lemma sum_indicr (n : nat) (i0 : 'I_n) (f : 'I_n -> F) :
  \sum_i f i * (i0 == i)%:R = f i0.
Proof.
by rewrite -[RHS]sum_indicl; apply: eq_bigr => i _; rewrite mulrC.
Qed.

Lemma selection_mul r (m : nat) (B : 'M[F]_(N, m)) a j :
  (selection F r *m B) a j = B (tnth (in_tuple r) a) j.
Proof.
rewrite mxE -[RHS](sum_indicl (tnth (in_tuple r) a) (fun i => B i j)).
by apply: eq_bigr => i _; rewrite mxE.
Qed.

Lemma mul_selectionT c (m : nat) (B : 'M[F]_(m, N)) a b :
  (B *m (selection F c)^T) a b = B a (tnth (in_tuple c) b).
Proof.
rewrite mxE -[RHS](sum_indicr (tnth (in_tuple c) b) (fun i => B a i)).
by apply: eq_bigr => i _; rewrite !mxE.
Qed.

Lemma submatrixE r c A :
  submatrix r c A = selection F r *m A *m (selection F c)^T.
Proof.
by apply/matrixP=> a b; rewrite mul_selectionT selection_mul mxE.
Qed.

Lemma selection_mulT r c a b :
  (selection F r *m (selection F c)^T) a b =
  (tnth (in_tuple r) a == tnth (in_tuple c) b)%:R.
Proof. by rewrite mul_selectionT mxE. Qed.

(** Rows listed once: selecting what was embedded gives it back. *)
Lemma selection_mulT_uniq idx :
  uniq idx -> selection F idx *m (selection F idx)^T = 1%:M.
Proof.
move=> uniq_idx; apply/matrixP=> a b; rewrite selection_mulT mxE.
congr (_ %:R); congr nat_of_bool.
have [x0 _] : {x : 'I_N | true} by exists (tnth (in_tuple idx) a).
by rewrite !(tnth_nth x0) /= nth_uniq.
Qed.

Lemma selection_inactive idx :
  selection F (inactive idx) *m (selection F idx)^T = 0.
Proof.
apply/matrixP=> a b; rewrite selection_mulT mxE.
have := mem_tnth a (in_tuple (inactive idx)).
rewrite mem_filter => /andP[notin _].
case: eqP => // eq_ab; move: notin; rewrite eq_ab.
by rewrite mem_tnth.
Qed.

Lemma selection_Tmul idx i j :
  uniq idx ->
  ((selection F idx)^T *m selection F idx) i j = ((i == j) && (i \in idx))%:R.
Proof.
move=> uniq_idx; rewrite mxE.
have termE a : (selection F idx)^T i a * selection F idx a j =
               (tnth (in_tuple idx) a == i)%:R * (i == j)%:R.
  by rewrite !mxE; case: eqP => [->|]; rewrite ?mul0r.
rewrite (eq_bigr _ (fun a _ => termE a)) -mulr_suml.
case: (boolP (i \in idx)) => [i_in|i_notin]; last first.
  rewrite big1 ?mul0r ?andbF // => a _.
  by case: eqP i_notin => // <-; rewrite mem_tnth.
have lt_i : (index i idx < size idx)%N by rewrite index_mem.
rewrite (bigD1 (Ordinal lt_i)) //= (tnth_nth i) /= nth_index // eqxx.
rewrite big1 ?addr0 ?mul1r ?andbT // => a ne_a.
rewrite (tnth_nth i) /=; case: eqP => // eq_i; case/eqP: ne_a.
by apply: val_inj; rewrite /= -eq_i index_uniq.
Qed.

(** Every row is active or inactive, and not both. *)
Lemma selection_partition idx :
  uniq idx ->
  (selection F idx)^T *m selection F idx
  + (selection F (inactive idx))^T *m selection F (inactive idx) = 1%:M.
Proof.
move=> uniq_idx; apply/matrixP=> i j.
have uniq_in : uniq (inactive idx) by rewrite filter_uniq // enum_uniq.
rewrite mxE (selection_Tmul _ _ uniq_idx) (selection_Tmul _ _ uniq_in).
rewrite [RHS]mxE mem_filter mem_enum andbT.
by case: (i == j); case: (i \in idx); rewrite /= ?addr0 ?add0r.
Qed.

Lemma embedE idx (v : seq F) :
  uniq idx -> embed idx v = (selection F idx)^T *m column (size idx) v.
Proof.
move=> uniq_idx; apply/matrixP=> i k; rewrite !mxE.
have termE a : (selection F idx)^T i a * column (size idx) v a k =
               (tnth (in_tuple idx) a == i)%:R * nth 0 v a.
  by rewrite !mxE.
rewrite (eq_bigr _ (fun a _ => termE a)).
case: (boolP (i \in idx)) => [i_in|i_notin]; last first.
  rewrite big1 // => a _.
  by case: eqP i_notin => [<-|]; rewrite ?mul0r // mem_tnth.
have lt_i : (index i idx < size idx)%N by rewrite index_mem.
rewrite (bigD1 (Ordinal lt_i)) //= (tnth_nth i) /= nth_index // eqxx mul1r.
rewrite big1 ?addr0 // => a ne_a.
rewrite (tnth_nth i) /=; case: eqP => [eq_i|]; rewrite ?mul0r //.
by case/eqP: ne_a; apply: val_inj; rewrite /= -eq_i index_uniq.
Qed.

Lemma column_select idx (x : 'cV[F]_N) :
  column (size idx) (select idx x) = selection F idx *m x.
Proof.
apply/matrixP=> a k; rewrite selection_mul mxE ord1 /select.
have [x0 _] : {x0 : 'I_N | true} by exists (tnth (in_tuple idx) a).
by rewrite (nth_map x0) // (tnth_nth x0).
Qed.

(** The active block of the inverse is the inverse of the Schur
    complement of the inactive block. *)
Lemma schur_inverse idx A :
  uniq idx -> A \in unitmx ->
  submatrix (inactive idx) (inactive idx) A \in unitmx ->
  schur_complement idx A
    *m (selection F idx *m invmx A *m (selection F idx)^T) = 1%:M.
Proof.
move=> uniq_idx unitA unitD.
set E := selection F idx; set E' := selection F (inactive idx).
have := selection_partition uniq_idx; rewrite -/E -/E' => part.
pose x := invmx A *m E^T.
have Ax : A *m x = E^T by rewrite /x mulKVmx.
have xE : x = E^T *m (E *m x) + E'^T *m (E' *m x).
  by rewrite (mulmxA E^T) (mulmxA E'^T) -mulmxDl part mul1mx.
have eqa : submatrix idx idx A *m (E *m x)
           + submatrix idx (inactive idx) A *m (E' *m x) = 1%:M.
  rewrite !submatrixE -/E -/E' -!mulmxA -!mulmxDr -xE Ax.
  by rewrite selection_mulT_uniq.
have eqi : submatrix (inactive idx) idx A *m (E *m x)
           + submatrix (inactive idx) (inactive idx) A *m (E' *m x) = 0.
  rewrite !submatrixE -/E -/E' -!mulmxA -!mulmxDr -xE Ax.
  by rewrite selection_inactive.
have xiE : E' *m x = - (invmx (submatrix (inactive idx) (inactive idx) A)
                        *m (submatrix (inactive idx) idx A *m (E *m x))).
  move/eqP: eqi; rewrite addrC addr_eq0 => /eqP eqD.
  by rewrite -mulmxN -eqD mulKmx.
rewrite -(mulmxA E) -/x /schur_complement mulmxBl -[RHS]eqa xiE mulmxN.
by rewrite !mulmxA.
Qed.

Lemma schur_unit idx A :
  uniq idx -> A \in unitmx ->
  submatrix (inactive idx) (inactive idx) A \in unitmx ->
  schur_complement idx A \in unitmx.
Proof.
move=> uniq_idx unitA unitD.
by case: (mulmx1_unit (schur_inverse uniq_idx unitA unitD)).
Qed.

(** The active rows of the solution of the full system, for a right-hand
    side that is zero on the inactive rows, are the solution of the system
    of the Schur complement. *)
Lemma schur_solve idx A (v : seq F) :
  uniq idx -> A \in unitmx ->
  submatrix (inactive idx) (inactive idx) A \in unitmx ->
  column (size idx) (select idx (invmx A *m embed idx v))
  = invmx (schur_complement idx A) *m column (size idx) v.
Proof.
move=> uniq_idx unitA unitD; rewrite column_select embedE // !mulmxA.
rewrite -[in RHS](mul1mx (column _ v)) -(schur_inverse uniq_idx unitA unitD).
by rewrite !mulmxA mulVmx ?mul1mx ?schur_unit.
Qed.

Lemma positive_definite_unit A : positive_definite A -> A \in unitmx.
Proof.
case: N A => [|n] A; first by rewrite unitmxE det_mx00 unitr1.
move/forallP/(_ ord_max); rewrite unitmxE unitfE.
have -> : leading (@ord_max n).+1 A = A.
  by apply/matrixP=> i j; rewrite mxE /= !ltn_ord.
by move=> /lt0r_neq0.
Qed.

Lemma size_select idx (x : 'cV[F]_N) : size (select idx x) = size idx.
Proof. by rewrite size_map. Qed.

Lemma solve_restrict (op : PrecisionOperator F N) mask (v : seq F) :
  size v = size mask -> positive_definite (effective op) ->
  solve (restrict op mask) v
  = Ok (select mask (invmx (effective op) *m embed mask v)).
Proof.
by rewrite /solve /factorize /active_dimension /= => -> ->; rewrite eqxx.
Qed.

End PrecisionFacts.

Section PrecisionExampleFacts.
Import Precision PrecisionExample.
Variable F : realFieldType.
Local Open Scope ring_scope.

Lemma det_mx2 (A : 'M[F]_2) :
  \det A = A ord0 ord0 * A ord_max ord_max - A ord0 ord_max * A ord_max ord0.
Proof.
rewrite (expand_det_row A ord0) !big_ord_recl big_ord0 addr0 /cofactor.
rewrite !det_mx11 !mxE /= !expr0 expr1 mul1r mulN1r mulrN.
by congr (_ * A _ _ - A _ _ * A _ _); apply: val_inj.
Qed.

Lemma ord2P (P : 'I_2 -> Prop) : P ord0 -> P ord_max -> forall i, P i.
Proof.
move=> P0 P1 [[|[|i]] lt_i] //.
  by rewrite (_ : Ordinal lt_i = ord0) //; apply: val_inj.
by rewrite (_ : Ordinal lt_i = ord_max) //; apply: val_inj.
Qed.

Lemma M2_positive_definite : positive_definite (@M2 F).
Proof.
apply/forallP; elim/ord2P; rewrite det_mx2 !mxE /=.
  by rewrite mulr1 mul0r subr0 ltr0n.
rewrite mulrNN mulr1 -natrM -[1]/(1%:R) -natrB // ltr0n.
Qed.

Lemma M2_full2 : @M2 F *m full2 F = embed mask2 (rhs2 F).
Proof.
apply/matrixP=> i j; rewrite !mxE !big_ord_recl big_ord0 addr0 !mxE.
elim/ord2P: i => /=.
  by rewrite mulN1r -natrM -natrB.
by rewrite mulN1r -natrM addrC subrr.
Qed.

Lemma example_solve :
  solve (restrict (op2 F) mask2) (rhs2 F) = Ok [:: 4%:R].
Proof.
rewrite solve_restrict ?M2_positive_definite // -M2_full2.
rewrite mulKmx ?positive_definite_unit ?M2_positive_definite //.
by rewrite /select /= mxE.
Qed.

Lemma example_naive_solve :
  naive_solve (restrict (op2 F) mask2) (rhs2 F) = Ok [:: 3%:R].
Proof.
rewrite /naive_solve /active_dimension /= enum_ordSl enum_ord0 /=.
have -> : submatrix mask2 mask2 (@M2 F) = (2%:R)%:M :> 'M[F]_1.
  by apply/matrixP=> a b; rewrite !mxE !ord1 /= mulr1n.
rewrite invmx_scalar mul_scalar_mx !mxE /= (natrM _ 2 3) mulKf //.
by rewrite pnatr_eq0.
Qed.

Lemma example_solve_differs :
  solve (restrict (op2 F) mask2) (rhs2 F)
  <> naive_solve (restrict (op2 F) mask2) (rhs2 F).
Proof.
rewrite example_solve example_naive_solve => -[] /eqP.
by rewrite eqr_nat.
Qed.

Lemma example_inactive_unit :
  submatrix (inactive mask2) (inactive mask2) (@M2 F) \in unitmx.
Proof.
have -> : inactive mask2 = [:: ord_max] :> seq 'I_2.
  rewrite /inactive !enum_ordSl enum_ord0 /=.
  by congr [:: _]; apply: val_inj.
by rewrite unitmxE det_mx11 !mxE /= unitfE pnatr_eq0.
Qed.

(** C1: for every operator, every mask without repetition (a strict subset
    of the rows or all of them) and every right-hand side of active
    length, on a positive definite effective matrix whose inactive block
    is invertible, [solve] on the restricted operator returns the active
    rows of the solution of the full system for the right-hand side
    embedded with zeros elsewhere; these rows are the solution of the
    system of the Schur complement of the inactive block.  For the matrix
    [[2, -1], [-1, 2]], whose inactive second row is coupled to the first,
    the result differs from dropping the inactive row and solving the
    smaller system. *)
Theorem restricted_solve_schur (N : nat) (op : PrecisionOperator F N)
    (mask : seq 'I_N) (v : seq F) :
  uniq mask -> size v = size mask ->
  positive_definite (effective op) ->
  submatrix (inactive mask) (inactive mask) (effective op) \in unitmx ->
  exists xs : seq F,
    [/\ solve (restrict op mask) v = Ok xs,
        xs = select mask (invmx (effective op) *m embed mask v),
        effective op *m (invmx (effective op) *m embed mask v)
        = embed mask v,
        column (size mask) xs
        = invmx (schur_complement mask (effective op))
          *m column (size mask) v
      & exists (op' : PrecisionOperator F 2) (mask' : seq 'I_2) (v' : seq F),
        [/\ uniq mask', (size mask' < 2)%N, size v' = size mask',
            exists i j, [/\ i \notin mask', j \in mask'
                          & matrix op' i j != 0]
          & solve (restrict op' mask') v'
            <> naive_solve (restrict op' mask') v']].
Proof.
move=> uniq_mask size_v pd unitD.
have unitA := positive_definite_unit pd.
exists (select mask (invmx (effective op) *m embed mask v)); split=> //.
- exact: solve_restrict.
- by rewrite mulKVmx.
- exact: schur_solve.
exists (op2 F), mask2, (rhs2 F); split=> //; last exact: example_solve_differs.
by exists ord_max, ord0; split=> //; rewrite mxE /= oppr_eq0 oner_eq0.
Qed.

(** C7: [gaussian_likelihood] raises the shape error, [ValueError], on
    every vector whose length is not the active dimension of the operator,
    and on no vector of that length. *)
Theorem gaussian_likelihood_shape_error (log : F -> F) (log_2pi : F)
    (N : nat) (pz : seq F) (op : PrecisionOperator F N) :
  (size pz <> active_dimension op ->
   gaussian_likelihood log log_2pi pz op = Raise ValueError)
  /\ (size pz = active_dimension op ->
      gaussian_likelihood log log_2pi pz op <> Raise ValueError).
Proof.
rewrite /gaussian_likelihood; split=> [/eqP/negPf -> //|eq_size].
rewrite /solve /log_determinant /factorize eq_size eqxx /=.
by case: ifP.
Qed.

(** [test_gaussian_likelihood_errors]: the identity of two rows and a
    vector of one entry. *)
Lemma example_gaussian_likelihood_errors (log : F -> F) (log_2pi x : F) :
  gaussian_likelihood log log_2pi [:: x]
    (Operator (1%:M : 'M[F]_2) None None) = Raise ValueError.
Proof.
by rewrite /gaussian_likelihood /active_dimension /= size_enum_ord.
Qed.

End PrecisionExampleFacts.

Section PrecisionWitness.

Import Precision PrecisionExample.

Local Open Scope ring_scope.

Lemma restricted_solve_schur_witness :
  exists xs : seq rat,
    solve (restrict (op2 rat) mask2) (rhs2 rat) = Ok xs
    /\ column (size mask2) xs
       = invmx (schur_complement mask2 (effective (op2 rat)))
         *m column (size mask2) (rhs2 rat).
Proof.
have [] // := @restricted_solve_schur rat 2 (op2 rat) mask2 (rhs2 rat).
- exact: M2_positive_definite.
- exact: example_inactive_unit.
by move=> xs [solve_xs _ _ schur_xs _]; exists xs.
Defined.

End PrecisionWitness.

(** ** [load_ldgm]: rows kept, new indices, entries *)

Section LoadLdgmRows.

Import Sparse Io LoadLdgm.

Variable F : fieldType.

Local Open Scope ring_scope.

Implicit Types (A : csr_matrix F) (mask : seq bool).

Lemma new_index_lt mask k :
  nth false mask k -> (new_index mask k < count id mask)%N.
Proof.
rewrite /new_index; elim: mask k => [|b mask IH] [|k] //=; first by move=> ->.
by move=> /IH; rewrite ltn_add2l.
Qed.

Lemma new_index_mono mask i j :
  nth false mask i -> (i < j)%N -> (new_index mask i < new_index mask j)%N.
Proof.
rewrite /new_index; elim: mask i j => [|b mask IH] [|i] [|j] //=.
  by move=> ->.
by move=> mi lt_ij; rewrite ltn_add2l IH.
Qed.

Lemma new_index_inj mask i j :
  nth false mask i -> nth false mask j ->
  new_index mask i = new_index mask j -> i = j.
Proof.
move=> mi mj eq_ij; case: (ltngtP i j) => // lt.
  by have := new_index_mono mi lt; rewrite eq_ij ltnn.
by have := new_index_mono mj lt; rewrite eq_ij ltnn.
Qed.

Lemma size_old_to_new mask : size (old_to_new mask) = size mask.
Proof. by rewrite size_map size_iota. Qed.

Lemma nth_old_to_new mask k :
  (k < size mask)%N ->
  nth 0 (old_to_new mask) k =
  if nth false mask k then Posz (new_index mask k) else -1.
Proof.
by move=> lt_k; rewrite (nth_map 0%N) ?size_iota // nth_iota.
Qed.

Lemma np_getitem_old_to_new mask x :
  np_getitem (old_to_new mask) x =
  if in_bounds (size mask) x then
    Ok (if nth false mask (python_index (size mask) x)
        then Posz (new_index mask (python_index (size mask) x)) else -1)
  else Raise IndexError.
Proof.
case: x => k /=; rewrite size_old_to_new; case: ifP => // lt_k.
  by rewrite nth_old_to_new.
by rewrite nth_old_to_new // -subSn // subSS leq_subr.
Qed.

Lemma reindex_variantsE mask (snplist : seq variant) :
  reindex_variants (old_to_new mask) snplist =
  if all (fun v => in_bounds (size mask) (v_index v)) snplist then
    Ok [seq Variant
              (if nth false mask (python_index (size mask) (v_index v))
               then Posz (new_index mask (python_index (size mask) (v_index v)))
               else -1)
              (v_index v) (site_ids v) (chr v) (position v)
              (anc_alleles v) (deriv_alleles v)
       | v <- snplist]
  else Raise IndexError.
Proof.
elim: snplist => [|v vs IH] //=.
rewrite np_getitem_old_to_new; case: ifP => //= _.
by rewrite IH; case: ifP.
Qed.


Lemma eq_map_filter (T U : Type) (p : pred T) (f g : T -> U) (s : seq T) :
  (forall x, p x -> f x = g x) ->
  [seq f x | x <- s & p x] = [seq g x | x <- s & p x].
Proof.
by move=> fg; elim: s => [|x s IH] //=; case: ifP => //= /fg ->; rewrite IH.
Qed.

Lemma csr_matrix_coo_shape (edgelist : seq (int * int * F)) A :
  csr_matrix_coo edgelist = Ok A ->
  all (fun e => (e.1.1 < (shape A).1)%N && (e.1.2 < (shape A).2)%N)
      (entries A).
Proof.
rewrite /csr_matrix_coo; case: ifP => // _; case: ifP => // _ [<-] /=.
rewrite all_map; elim: edgelist => [|e s IH] //=.
rewrite !ltnS leq_maxl leq_maxl /=; apply: sub_all IH => e' /=.
by rewrite !ltnS => /andP[le1 le2]; rewrite !leq_max le1 le2 !orbT.
Qed.

(** [load_ldgm], once the checks that cannot fail are removed. *)
Lemma load_ldgmE (edgelist : seq (int * int * F)) (snplist : seq variant) :
  load_ldgm edgelist snplist =
  if ~~ square_edgelist edgelist then Raise ValueError
  else
    let* A := csr_matrix_coo edgelist in
    let mask := nonzero_mask A in
    let M := setdiag (Csr (shape A) (entries A ++ entries (transpose A)))
               [seq d / 2%:R | d <- diagonal A] in
    if ~~ all (fun v => in_bounds (size mask) (v_index v)) snplist
    then Raise IndexError
    else
      Ok (Operator
            (Csr (count id mask, count id mask)
               [seq (new_index mask e.1.1, new_index mask e.1.2, e.2)
               | e <- entries M & nth false mask e.1.1 && nth false mask e.1.2])
            [seq reindexed mask v
            | v <- snplist
            & nth false mask (python_index (size mask) (v_index v))]
            None).
Proof.
have sqE : square_edgelist edgelist =
           if csr_matrix_coo edgelist is Ok A
           then (shape A).1 == (shape A).2 else false.
  rewrite /square_edgelist /csr_matrix_coo.
  by case: ifP => //= _; case: ifP => //= _; rewrite eqSS.
have errE e : csr_matrix_coo edgelist = Raise e -> e = ValueError.
  by rewrite /csr_matrix_coo; do 2![case: ifP => [_ [<-] //|_]].
rewrite /load_ldgm sqE.
case cooE: (csr_matrix_coo edgelist) => [A|e] /=; last by rewrite (errE e).
rewrite /add /=; case shA: (shape A) => [r c].
rewrite xpair_eqE [c == r]eq_sym andbb /=; case: eqP => //= eq_rc.
set B := Csr _ _.
have szd : size [seq d / 2%:R | d <- diagonal A]
           = minn (shape B).1 (shape B).2.
  by rewrite !size_map size_iota /= shA.
rewrite diagonal_setdiag // eqxx /=.
have -> : [seq d != 0 | d <- [seq d / 2%:R | d <- diagonal A]]
          = nonzero_mask A.
  by rewrite /nonzero_mask /diagonal -!map_comp shA /= -eq_rc minnn.
rewrite reindex_variantsE; case: ifP => //= _.
rewrite /getitem_mask /= {1 2}/nonzero_mask size_map size_iota shA /=.
rewrite -eq_rc eqxx /=; congr (Ok (Operator _ _ _)).
have szm : size (nonzero_mask A) = r by rewrite size_map size_iota shA.
rewrite filter_map.
rewrite (@eq_filter _ _
  (fun v => nth false (nonzero_mask A) (python_index r (v_index v)))).
  by move=> v /=; case: ifP.
by apply: eq_map_filter => v; rewrite /reindexed szm => ->.
Qed.


Lemma get_cat A (s : seq (nat * nat * F)) i j :
  get (Csr (shape A) (entries A ++ s)) i j = get A i j + get (Csr (shape A) s) i j.
Proof. by rewrite !getE /= big_cat. Qed.

Lemma get_setdiag A (values : seq F) i j :
  get (setdiag A values) i j =
  if (i == j) && (i < minn (minn (shape A).1 (shape A).2) (size values))%N
  then nth 0 values i else get A i j.
Proof.
rewrite !getE /= big_cat /= big_filter_cond big_map /=.
set n := minn _ _.
case: ifP => [/andP[/eqP <- lt_i]|not_diag].
  have -> : \sum_(e <- entries A |
              ~~ ((e.1.1 == e.1.2) && (e.1.1 < n)%N) && (e.1 == (i, i))) e.2
            = 0.
    apply: big1 => -[[i' j'] x] /= /andP[ndiag /eqP[ei ej]].
    by move: ndiag; rewrite ei ej eqxx lt_i.
  have -> : \sum_(k <- iota 0 n | (k, k) == (i, i)) nth 0 values k
            = \sum_(k <- iota 0 n | k == i) nth 0 values k.
    by apply: eq_bigl => k; rewrite xpair_eqE andbb.
  by rewrite add0r -big_filter filter_pred1_uniq ?iota_uniq ?mem_iota // big_seq1.
have -> : \sum_(k <- iota 0 n | (k, k) == (i, j)) nth 0 values k = 0.
  rewrite big_seq_cond; apply: big1 => k.
  rewrite mem_iota add0n xpair_eqE /= => /andP[lt_k /andP[/eqP ei /eqP ej]].
  by move: not_diag; rewrite -ei -ej eqxx lt_k.
rewrite addr0; apply: eq_bigl => -[[i' j'] x] /=; rewrite xpair_eqE.
case: (boolP ((i' == i) && (j' == j))) => [/andP[/eqP -> /eqP ->]|_].
  by rewrite not_diag.
by rewrite andbF.
Qed.

Lemma get_masked sh (s : seq (nat * nat * F)) mask i j :
  nth false mask i -> nth false mask j ->
  get (Csr sh [seq (new_index mask e.1.1, new_index mask e.1.2, e.2)
              | e <- s & nth false mask e.1.1 && nth false mask e.1.2])
      (new_index mask i) (new_index mask j)
  = get (Csr sh s) i j.
Proof.
move=> mi mj.
rewrite !getE /= big_map big_filter_cond; apply: eq_bigl => -[[i' j'] x] /=.
rewrite !xpair_eqE; apply/idP/idP.
  case/andP=> /andP[mi' mj'] /andP[/eqP ei /eqP ej].
  by rewrite (new_index_inj mi' mi ei) (new_index_inj mj' mj ej) !eqxx.
by case/andP=> /eqP -> /eqP ->; rewrite mi mj !eqxx.
Qed.

Lemma size_nonzero_mask A : size (nonzero_mask A) = (shape A).1.
Proof. by rewrite size_map size_iota. Qed.

Lemma nth_nonzero_mask A k :
  nth false (nonzero_mask A) k =
  (k < (shape A).1)%N && (get A k k / 2%:R != 0).
Proof.
case: ltnP => [lt_k|le_k]; last by rewrite nth_default ?size_nonzero_mask.
by rewrite (nth_map 0%N) ?size_iota // nth_iota.
Qed.

(** The entries of the matrix [load_ldgm] returns, from those of the
    matrix of the edge list. *)
Lemma load_ldgm_get (edgelist : seq (int * int * F)) (snplist : seq variant)
    (op : PrecisionOperator (csr_matrix F)) A i j :
  load_ldgm edgelist snplist = Ok op -> csr_matrix_coo edgelist = Ok A ->
  nth false (nonzero_mask A) i -> nth false (nonzero_mask A) j ->
  get (matrix op) (new_index (nonzero_mask A) i) (new_index (nonzero_mask A) j)
  = if i == j then get A i i / 2%:R else get A i j + get A j i.
Proof.
rewrite load_ldgmE; case: ifP => // /negbFE sq loadE cooE; move: loadE.
rewrite cooE /bind; cbv zeta; case: ifP => // _ [<-] mi mj.
rewrite [matrix _]/= get_masked //.
rewrite -[LHS]/(get (setdiag (Csr (shape A) (entries A ++ entries (transpose A)))
                       [seq d / 2%:R | d <- diagonal A]) i j).
have sqA : (shape A).2 = (shape A).1.
  move: cooE sq; rewrite /csr_matrix_coo; case: ifP => // _; case: ifP => // _.
  by case=> <- /= /and3P[_ _ /eqP ->].
rewrite get_setdiag /= !size_map size_iota sqA !minnn.
have lt_i : (i < (shape A).1)%N by move: mi; rewrite nth_nonzero_mask => /andP[].
rewrite lt_i andbT; case: eqP => [_|_].
  by rewrite (nth_map 0) ?size_map ?size_iota ?sqA ?minnn // (nth_map 0%N)
             ?size_iota ?sqA ?minnn // nth_iota ?sqA ?minnn.
by rewrite get_cat; congr (_ + _); rewrite -(get_transpose A i j).
Qed.


Lemma new_index_surj mask k :
  (k < count id mask)%N ->
  exists2 i, nth false mask i & new_index mask i = k.
Proof.
rewrite /new_index; elim: mask k => [|b mask IH] k //=.
case: b => /=; last first.
  by rewrite add0n => /IH[i mi <-]; exists i.+1.
case: k => [_|k]; first by exists 0%N.
by rewrite add1n ltnS => /IH[i mi <-]; exists i.+1.
Qed.

(** What a call that returns has computed. *)
Lemma load_ldgm_ok (edgelist : seq (int * int * F)) (snplist : seq variant)
    (op : PrecisionOperator (csr_matrix F)) :
  load_ldgm edgelist snplist = Ok op ->
  exists A,
    [/\ csr_matrix_coo edgelist = Ok A,
        (shape A).2 = (shape A).1,
        shape (matrix op)
        = (count id (nonzero_mask A), count id (nonzero_mask A)),
        variant_info op
        = [seq reindexed (nonzero_mask A) v
          | v <- snplist
          & nth false (nonzero_mask A)
              (python_index (shape A).1 (v_index v))]
      & _which_indices op = None].
Proof.
rewrite load_ldgmE; case: ifP => // /negbFE sq.
case cooE: (csr_matrix_coo edgelist) => [A|] //=.
case: ifP => // _ [<-] /=; exists A; split=> //; last first.
  by rewrite size_nonzero_mask.
move: cooE sq; rewrite /csr_matrix_coo /square_edgelist.
case: ifP => // _; case: ifP => // _.
by case=> <- /= /eqP ->.
Qed.



Lemma load_ldgm_variants_in_range (edgelist : seq (int * int * F))
    (snplist : seq variant) (op : PrecisionOperator (csr_matrix F)) :
  load_ldgm edgelist snplist = Ok op ->
  all (fun v => (0 <= v_index v) && (v_index v < Posz (shape (matrix op)).1))
      (variant_info op).
Proof.
move=> /load_ldgm_ok[A [_ _ -> -> _]] /=.
rewrite all_map -size_nonzero_mask; elim: snplist => //= v s IH.
by case: ifP => //= mv; rewrite IH andbT ltz_nat new_index_lt.
Qed.

(** X2.  In the operator [load_ldgm] returns, the matrix is square, every
    stored entry lies inside it, every variant's [index] is a row of the
    matrix, and [_which_indices] is unset. *)
Theorem load_ldgm_index_range (edgelist : seq (int * int * F))
    (snplist : seq variant) (op : PrecisionOperator (csr_matrix F)) :
  load_ldgm edgelist snplist = Ok op ->
  let m := (shape (matrix op)).1 in
  [/\ shape (matrix op) = (m, m),
      all (fun e => (e.1.1 < m)%N && (e.1.2 < m)%N) (entries (matrix op)),
      all (fun v => (0 <= v_index v) && (v_index v < Posz m)) (variant_info op)
    & _which_indices op = None].
Proof.
move=> loadE; have in_range := load_ldgm_variants_in_range loadE.
have [A [cooE sqA shE viE wiE]] := load_ldgm_ok loadE.
move: in_range; rewrite shE /= => in_range; split=> //.
move: loadE; rewrite load_ldgmE; case: ifP => // _; rewrite cooE /bind.
cbv zeta; case: ifP => // _ [<-]; rewrite [entries _]/= all_map.
by apply/allP=> e; rewrite mem_filter /= => /andP[/andP[m1 m2] _];
   rewrite !new_index_lt.
Qed.


Lemma new_index_ltE mask i j :
  nth false mask i -> nth false mask j ->
  (new_index mask i < new_index mask j)%N = (i < j)%N.
Proof.
move=> mi mj; case: (ltngtP i j) => [lt|lt|->]; last by rewrite ltnn.
  exact: new_index_mono.
by rewrite ltnNge ltnW // new_index_mono.
Qed.

Lemma nth_filter_map (T U : Type) (p : pred T) (f : T -> U) (s : seq T)
    (d : U) a :
  (a < size [seq f x | x <- s & p x])%N ->
  exists2 x, p x & nth d [seq f x | x <- s & p x] a = f x.
Proof.
elim: s a => [|x s IH] a //=; case: ifP => [px|_]; last exact: IH.
by case: a => [_|a] /=; [exists x | apply: IH].
Qed.

(** X3.  The variants [load_ldgm] returns are, in the order of the
    [.snplist] file, the rows whose index reads a row of the matrix with a
    nonzero diagonal entry (half the entry of the edge list's matrix); a
    row kept has the number of such matrix rows before its own as its new
    [index], its index in the file as [original_index], and its other
    columns as they were. *)
Theorem load_ldgm_variant_info (edgelist : seq (int * int * F))
    (snplist : seq variant) (op : PrecisionOperator (csr_matrix F))
    (A : csr_matrix F) :
  load_ldgm edgelist snplist = Ok op -> csr_matrix_coo edgelist = Ok A ->
  let n := (shape A).1 in
  let mask := nonzero_mask A in
  [/\ forall k, nth false mask k = (k < n)%N && (get A k k / 2%:R != 0),
      forall k, new_index mask k = count id (take k mask)
    & variant_info op =
      [seq Variant (Posz (new_index mask (python_index n (v_index v))))
             (v_index v) (site_ids v) (chr v) (position v)
             (anc_alleles v) (deriv_alleles v)
      | v <- snplist & nth false mask (python_index n (v_index v))]].
Proof.
move=> /load_ldgm_ok[A' [-> _ _ viE _]] [<-] /=; split=> //.
  exact: nth_nonzero_mask.
by rewrite viE /reindexed size_nonzero_mask.
Qed.

(** X4.  The renumbering of [load_ldgm] keeps the order of the rows: of
    two variants returned whose [original_index] is not negative, the one
    with the smaller [original_index] has the smaller [index], and
    variants of one row share their [index]. *)
Theorem load_ldgm_index_order (edgelist : seq (int * int * F))
    (snplist : seq variant) (op : PrecisionOperator (csr_matrix F))
    (d : variant) (a b : nat) :
  load_ldgm edgelist snplist = Ok op ->
  (a < size (variant_info op))%N -> (b < size (variant_info op))%N ->
  let v := nth d (variant_info op) a in
  let w := nth d (variant_info op) b in
  0 <= original_index v -> 0 <= original_index w ->
  (v_index v < v_index w) = (original_index v < original_index w)
  /\ (v_index v == v_index w) = (original_index v == original_index w).
Proof.
move=> /load_ldgm_ok[A [_ _ _ -> _]] lt_a lt_b /=.
have [v kv ->] := nth_filter_map d lt_a.
have [w kw ->] := nth_filter_map d lt_b.
rewrite /reindexed /= size_nonzero_mask in kv kw *.
case: (v_index v) kv => // i /= mi _; case: (v_index w) kw => // j /= mj _.
rewrite !ltz_nat !eqz_nat new_index_ltE //; split=> //.
apply/eqP/eqP=> [|->] //; exact: new_index_inj.
Qed.

(** X5.  The entries of the matrix [load_ldgm] returns, for two rows [i]
    and [j] of the edge list's matrix [A] with a nonzero diagonal entry:
    off the diagonal the entry is [A[i, j] + A[j, i]], on the diagonal it
    is [A[i, i] / 2]; [A[i, j]] is the sum of the values the edge list
    gives for [(i, j)]; and the matrix returned has one row and one column
    for each row of [A] with a nonzero diagonal entry. *)
Theorem load_ldgm_entries (edgelist : seq (int * int * F))
    (snplist : seq variant) (op : PrecisionOperator (csr_matrix F))
    (A : csr_matrix F) (i j : nat) :
  load_ldgm edgelist snplist = Ok op -> csr_matrix_coo edgelist = Ok A ->
  let mask := nonzero_mask A in
  nth false mask i -> nth false mask j ->
  [/\ get (matrix op) (new_index mask i) (new_index mask j)
      = (if i == j then get A i i / 2%:R else get A i j + get A j i),
      forall i j, get A i j
        = \sum_(e <- edgelist | (e.1.1 == Posz i) && (e.1.2 == Posz j)) e.2
    & shape (matrix op) = (count id mask, count id mask)
      /\ (new_index mask i < count id mask)%N
         && (new_index mask j < count id mask)%N].
Proof.
move=> loadE cooE mask mi mj; split; first exact: (load_ldgm_get loadE cooE).
  move=> i' j'; move: cooE; rewrite /csr_matrix_coo.
  case: ifP => // _; case: ifP => // /negbT; rewrite -all_predC => nonneg.
  case=> <-; rewrite getE /= big_map big_seq_cond [RHS]big_seq_cond.
  apply: eq_bigl => -[[x y] z] /=; case: (boolP (_ \in _)) => //= in_e.
  have /= := allP nonneg _ in_e; rewrite negb_or xpair_eqE.
  by case: x y {in_e} => [x|x] [y|y].
have [A' [cooE' _ -> _ _]] := load_ldgm_ok loadE.
by move: cooE'; rewrite cooE => -[<-] /=; rewrite !new_index_lt.
Qed.

(** X6.  Every diagonal entry of the matrix [load_ldgm] returns is
    nonzero. *)
Theorem load_ldgm_diagonal_nonzero (edgelist : seq (int * int * F))
    (snplist : seq variant) (op : PrecisionOperator (csr_matrix F)) :
  load_ldgm edgelist snplist = Ok op ->
  size (diagonal (matrix op)) = (shape (matrix op)).1
  /\ all (fun d => d != 0) (diagonal (matrix op)).
Proof.
move=> loadE; have [A [cooE _ shE _ _]] := load_ldgm_ok loadE.
rewrite /diagonal size_map size_iota shE /= minnn; split=> //.
rewrite all_map; apply/allP=> k; rewrite mem_iota add0n /= => lt_k.
have [i mi <-] := new_index_surj lt_k.
rewrite (load_ldgm_get loadE cooE mi mi) eqxx.
by move: mi; rewrite nth_nonzero_mask => /andP[].
Qed.

End LoadLdgmRows.

Section LoadLdgmRowsExample.

Import Sparse Io IoExample LoadLdgm.

Local Open Scope ring_scope.

Lemma example_load_ldgm_rows :
  exists op A,
    [/\ load_ldgm edgelist snplist = Ok op,
        csr_matrix_coo edgelist = Ok A,
        nonzero_mask A = [:: true; true; false],
        size (variant_info op) = 2%N
      & [seq original_index v | v <- variant_info op] = [:: 0; 1]].
Proof.
have : if load_ldgm edgelist snplist is Ok op
       then (size (variant_info op) == 2%N)
            && ([seq original_index v | v <- variant_info op] == [:: 0; 1])
       else false by vm_compute.
have : if csr_matrix_coo edgelist is Ok A
       then nonzero_mask A == [:: true; true; false] else false
  by vm_compute.
move: (csr_matrix_coo edgelist) (load_ldgm edgelist snplist) => [A|e1] [op|e2] //.
move=> /eqP maskE /andP[/eqP szE /eqP oiE].
by exists op, A.
Qed.

Lemma load_ldgm_index_range_witness :
  exists op,
    load_ldgm edgelist snplist = Ok op
    /\ all (fun v => (0 <= v_index v)
                     && (v_index v < Posz (shape (matrix op)).1))
           (variant_info op).
Proof.
have [op [A [loadE _ _ _ _]]] := example_load_ldgm_rows.
exists op; split; first exact: loadE.
have [_ _ in_range _] := load_ldgm_index_range loadE.
exact: in_range.
Defined.

Lemma load_ldgm_variant_info_witness :
  exists op A,
    [/\ load_ldgm edgelist snplist = Ok op, csr_matrix_coo edgelist = Ok A
      & [seq v_index v | v <- variant_info op] = [:: 0; 1]].
Proof.
have [op [A [loadE cooE maskE _ _]]] := example_load_ldgm_rows.
exists op, A; split; [exact: loadE | exact: cooE |].
have [_ _ ->] := load_ldgm_variant_info loadE cooE.
have -> : (shape A).1 = 3%N by rewrite -size_nonzero_mask maskE.
rewrite maskE; exact: erefl.
Defined.

Lemma load_ldgm_index_order_witness :
  exists op d,
    load_ldgm edgelist snplist = Ok op
    /\ (v_index (nth d (variant_info op) 0) < v_index (nth d (variant_info op) 1))
       = (original_index (nth d (variant_info op) 0)
          < original_index (nth d (variant_info op) 1)).
Proof.
have [op [A [loadE _ _ szE oiE]]] := example_load_ldgm_rows.
pose d := Variant 0 0 "" 0 0 "" "".
have oi k : (k < 2)%N ->
            original_index (nth d (variant_info op) k)
            = nth 0 [seq original_index v | v <- variant_info op] k.
  by rewrite -szE => lt_k; rewrite (nth_map d).
have lt0 : (0 < size (variant_info op))%N by rewrite szE.
have lt1 : (1 < size (variant_info op))%N by rewrite szE.
have ge0 : 0 <= original_index (nth d (variant_info op) 0).
  by rewrite oi ?oiE.
have ge1 : 0 <= original_index (nth d (variant_info op) 1).
  by rewrite oi ?oiE.
exists op, d; split; first exact: loadE.
have [order _] := @load_ldgm_index_order _ edgelist snplist op d 0 1 loadE
                    lt0 lt1 ge0 ge1.
exact: order.
Defined.

Lemma load_ldgm_entries_witness :
  exists op A,
    [/\ load_ldgm edgelist snplist = Ok op, csr_matrix_coo edgelist = Ok A
      & get (matrix op) 0 1 = get A 0 1 + get A 1 0].
Proof.
have [op [A [loadE cooE maskE _ _]]] := example_load_ldgm_rows.
have m0 : nth false (nonzero_mask A) 0 by rewrite maskE.
have m1 : nth false (nonzero_mask A) 1 by rewrite maskE.
exists op, A; split; [exact: loadE | exact: cooE |].
have [] := @load_ldgm_entries _ edgelist snplist op A 0 1 loadE cooE m0 m1.
rewrite maskE => getE _ _; exact: getE.
Defined.

Lemma load_ldgm_diagonal_nonzero_witness :
  exists op,
    load_ldgm edgelist snplist = Ok op
    /\ all (fun d => d != 0) (diagonal (matrix op)).
Proof.
have [op [A [loadE _ _ _ _]]] := example_load_ldgm_rows.
exists op; split; first exact: loadE.
have [_ nonzero] := load_ldgm_diagonal_nonzero loadE.
exact: nonzero.
Defined.

End LoadLdgmRowsExample.

(** ** [merge_snplists], block by block *)

Section MergeSnplistsBlocks.

Import Np Io MergeRows.

Variable Mx : Type.

Notation heap := (heap Mx).

Lemma assign_loop_eq (W W' : nat -> seq int) (h : heap) (ops : seq (nat * nat)) :
  all (fun x => W x.1 == W' x.1) ops ->
  assign_loop W h ops = assign_loop W' h ops.
Proof.
rewrite /assign_loop; elim: ops h => [|x ops IH] h //= /andP[/eqP -> /IH].
exact.
Qed.

(** [merge_snplists] block by block: the frames, and the assignments. *)
Lemma merge_snplistsE (h : heap) (precision_ops : seq nat)
    (sumstats : DataFrame)
    (variant_id_col ref_allele_col alt_allele_col : string)
    (match_by_position : bool) (chr_col pos_col table_format : string) :
  let vcf := lower table_format == "vcf"%string in
  let id_col := if vcf then "ID"%string else variant_id_col in
  let ref := if vcf then "A1"%string else ref_allele_col in
  let alt := if vcf then "A2"%string else alt_allele_col in
  let on := join_on match_by_position id_col chr_col pos_col in
  let has_alleles :=
    (ref \in columns sumstats) && (alt \in columns sumstats) in
  let keys_present :=
    if match_by_position
    then (chr_col \in columns sumstats) && (pos_col \in columns sumstats)
    else id_col \in columns sumstats in
  let B i :=
    block_merge has_alleles on ref alt i
      (get_variant_info h (nth 0 precision_ops i)) (rows sumstats) in
  merge_snplists h precision_ops sumstats variant_id_col ref_allele_col
    alt_allele_col match_by_position chr_col pos_col table_format =
  if keys_present then
    Ok ([seq B i | i <- iota 0 (size precision_ops)],
        assign_loop (fun i => [seq v_index (left m) | m <- B i]) h
          (zip (iota 0 (size precision_ops)) precision_ops))
  else Raise ValueError.
Proof.
move=> vcf id_col ref alt on has_alleles keys_present B.
rewrite /merge_snplists; cbv zeta; rewrite -/vcf -/id_col -/ref -/alt.
have -> : (if match_by_position
           then ~~ all (fun col => col \in columns sumstats) [:: chr_col; pos_col]
           else id_col \notin columns sumstats) = ~~ keys_present.
  by rewrite /keys_present; case: (match_by_position); rewrite //= andbT.
rewrite if_neg; case: ifP => // kp.
set vis := [seq get_variant_info h op | op <- precision_ops].
set L := flatten _.
have -> : (if match_by_position
           then inner_join L (rows sumstats)
                  (fun v r => cell_eqb (CInt (chr v)) (r chr_col)
                              && cell_eqb (CInt (position v)) (r pos_col))
           else inner_join L (rows sumstats)
                  (fun v r => cell_eqb (CStr (site_ids v)) (r id_col)))
          = inner_join L (rows sumstats) on.
  by rewrite /on /join_on; case: (match_by_position).
rewrite /L.
have := @checked_blocksE sumstats ref alt on vis _ erefl.
cbv zeta => ->; rewrite -/has_alleles /= merge_loopE /=.
set merged := flatten _.
set zops := zip _ precision_ops.
have sz_vis : size vis = size precision_ops by rewrite size_map.
have blockE i : i < size precision_ops ->
    [seq m <- merged | block_index m == i] = B i.
  move=> lt_i.
  have := @filter_block
            (fun j vi => block_merge has_alleles on ref alt j vi (rows sumstats))
            0 vis i.
  rewrite add0n (nth_map 0) //; apply; rewrite ?sz_vis // => j vi.
  exact: block_merge_block_index.
have fstE : [seq x.1 | x <- zops] = iota 0 (size precision_ops).
  by rewrite -/(unzip1 _) unzip1_zip // size_iota.
congr (Ok (_, _)).
  rewrite (map_comp (fun i => [seq m <- merged | block_index m == i]) fst).
  by rewrite fstE; apply/eq_in_map=> i; rewrite mem_iota => /blockE.
apply: assign_loop_eq.
rewrite -(all_map fst (fun i =>
  [seq v_index (left m) | m <- merged & block_index m == i]
  == [seq v_index (left m) | m <- B i])) fstE.
by apply/allP=> i; rewrite mem_iota => /blockE ->.
Qed.


Lemma block_mergeE has_alleles on ref alt i vi ss :
  block_merge has_alleles on ref alt i vi ss =
  flatten
    [seq [seq Merged v i r
                (if has_alleles
                 then Some (phase_of ref alt (Merged v i r None)) else None)
         | r <- ss & kept_pair has_alleles on ref alt i v r]
    | v <- vi].
Proof.
rewrite /block_merge /inner_join /kept_pair -map_comp.
case: has_alleles => /=.
  rewrite filter_flatten map_flatten -!map_comp; congr flatten.
  apply: eq_map => v /=; rewrite filter_map -map_comp -filter_predI.
  by congr map; apply: eq_filter => r /=; rewrite andbC.
congr flatten; apply: eq_map => v /=.
by congr map; apply: eq_filter => r; rewrite andbT.
Qed.

Lemma row_phase_range a d r t : row_phase a d r t \in [:: 1; 0; -1]%R.
Proof. by rewrite /row_phase; case: ifP => // _; case: ifP. Qed.


Lemma last_occurrence (ops : seq nat) (r : nat) :
  r \in ops ->
  exists i, [/\ i < size ops, nth 0 ops i = r
              & forall j, i < j < size ops -> nth 0 ops j != nth 0 ops i].
Proof.
elim/last_ind: ops => [|ops x IH] //; rewrite mem_rcons inE size_rcons.
case: (eqVneq x r) => [-> _|ne_x /= /IH[i [lt_i nth_i last_i]]].
  exists (size ops); rewrite nth_rcons ltnn eqxx; split=> // j.
  by rewrite ltnS; case: ltngtP.
exists i; rewrite nth_rcons lt_i; split=> // [|j /andP[lt_ij]]; first exact: ltnW.
rewrite ltnS leq_eqVlt nth_rcons => /orP[/eqP ->|lt_j].
  by rewrite ltnn eqxx nth_i.
by rewrite lt_j last_i // lt_ij.
Qed.

Lemma assignedK (w : seq int) (o : PrecisionOperator Mx) :
  assigned w (assigned w o) = assigned w o.
Proof. by []. Qed.

Lemma assign_loop_idem W (h : heap) (ops : seq nat) :
  let zops := zip (iota 0 (size ops)) ops in
  assign_loop W (assign_loop W h zops) zops = assign_loop W h zops.
Proof.
move=> zops; apply: eq_from_onth => r.
case: (boolP (r \in ops)) => [/last_occurrence[i [lt_i <- last_i]]|notin].
  rewrite !(assign_loop_last _ _ 0 lt_i last_i).
  by case: (onth h _).
by rewrite !(assign_loop_frame _ _ 0 notin).
Qed.

Lemma get_variant_info_assign_loop W (h : heap) (zops : seq (nat * nat)) r :
  get_variant_info (assign_loop W h zops) r = get_variant_info h r.
Proof.
rewrite /get_variant_info.
have := assign_loop_fields W h zops r.
by case: (onth _ r) => [o|]; case: (onth h r) => [o'|] //= [_ ->].
Qed.


Lemma indices_block_merge has_alleles on ref alt i vi ss :
  [seq v_index (left m) | m <- block_merge has_alleles on ref alt i vi ss] =
  flatten [seq nseq (count (kept_pair has_alleles on ref alt i v) ss) (v_index v)
          | v <- vi].
Proof.
rewrite block_mergeE map_flatten -map_comp; congr flatten.
apply: eq_map => v /=; rewrite -map_comp -size_filter.
by elim: (filter _ ss) => //= r s ->.
Qed.

Lemma flatten_nseq_sub (T : eqType) (c : seq nat) (s : seq T) x :
  x \in flatten [seq nseq y.1 y.2 | y <- zip c s] -> x \in s.
Proof.
elim: s c => [|y s IH] [|n c] //=; rewrite mem_cat inE.
by case/orP=> [|/IH ->]; rewrite ?orbT // mem_nseq => /andP[_ ->].
Qed.

Lemma flatten_nseq_subseq (T : eqType) (c : seq nat) (s : seq T) :
  all (fun n => n <= 1) c -> size c = size s ->
  subseq (flatten [seq nseq y.1 y.2 | y <- zip c s]) s.
Proof.
elim: s c => [|y s IH] [|n c] // /andP[le_n all_c] [sz].
rewrite [zip _ _]/= [map _ _]/= [flatten _]/= -[y :: s]cat1s.
apply: cat_subseq; last exact: IH.
by case: n le_n => [|[|n]] //= _; rewrite ?eqxx // sub0seq.
Qed.

Lemma all_flatten_seq (T : Type) (p : pred T) (ss : seq (seq T)) :
  all p (flatten ss) = all (all p) ss.
Proof. by elim: ss => //= s ss <-; rewrite all_cat. Qed.

Lemma all_filter_sub (T : Type) (p q : pred T) (s : seq T) :
  (forall x, p x -> q x) -> all q [seq x <- s | p x].
Proof.
by move=> pq; elim: s => //= x s IH; case: ifP => //= /pq ->.
Qed.

Lemma all_pred (T : Type) (p : pred T) (s : seq T) :
  (forall x, p x) -> all p s.
Proof. by move=> px; elim: s => //= x s ->; rewrite px. Qed.

Lemma map_zip_fun (T U V : Type) (f : T -> U) (g : U -> T -> V) (s : seq T) :
  [seq g y.1 y.2 | y <- zip (map f s) s] = [seq g (f x) x | x <- s].
Proof. by elim: s => //= x s ->. Qed.

(** X7.  [merge_snplists] reads the operators' [variant_info] only: called
    again on the store it has updated, it returns the same frames and
    leaves the store as it is. *)
Theorem merge_snplists_idempotent (h h' : heap) (precision_ops : seq nat)
    (sumstats : DataFrame)
    (variant_id_col ref_allele_col alt_allele_col : string)
    (match_by_position : bool) (chr_col pos_col table_format : string)
    (result : seq (seq merged_row)) :
  merge_snplists h precision_ops sumstats variant_id_col ref_allele_col
    alt_allele_col match_by_position chr_col pos_col table_format
  = Ok (result, h') ->
  merge_snplists h' precision_ops sumstats variant_id_col ref_allele_col
    alt_allele_col match_by_position chr_col pos_col table_format
  = Ok (result, h').
Proof.
rewrite !merge_snplistsE; cbv zeta; case: ifP => // _ [<- <-].
congr (Ok (_, _)).
  by apply: eq_map => i; rewrite get_variant_info_assign_loop.
rewrite -[RHS]assign_loop_idem; apply: assign_loop_eq.
by apply/allP=> x _; rewrite get_variant_info_assign_loop.
Qed.




(** X10.  When the summary statistics have the key columns but no row,
    [merge_snplists] returns an empty frame for each operator of the list
    and gives each of them an empty [_which_indices]. *)
Theorem merge_snplists_no_rows (h h' : heap) (precision_ops : seq nat)
    (sumstats : DataFrame)
    (variant_id_col ref_allele_col alt_allele_col : string)
    (match_by_position : bool) (chr_col pos_col table_format : string)
    (result : seq (seq merged_row)) :
  rows sumstats = [::] ->
  merge_snplists h precision_ops sumstats variant_id_col ref_allele_col
    alt_allele_col match_by_position chr_col pos_col table_format
  = Ok (result, h') ->
  result = nseq (size precision_ops) [::]
  /\ forall r o, r \in precision_ops -> onth h r = Some o ->
       onth h' r = Some (Operator (matrix o) (variant_info o) (Some [::])).
Proof.
move=> no_rows; rewrite merge_snplistsE; cbv zeta; case: ifP => // _.
have BE has_alleles on ref alt i vi :
    block_merge has_alleles on ref alt i vi (rows sumstats) = [::].
  rewrite block_mergeE no_rows /=.
  by elim: vi => //= v s ->.
case=> <- <-; split.
  apply: (@eq_from_nth _ [::]); rewrite size_map size_iota ?size_nseq //.
  by move=> i lt_i; rewrite (nth_map 0) ?size_iota // BE nth_nseq lt_i.
move=> r o /last_occurrence[i [lt_i <- last_i]] h_r.
by rewrite (assign_loop_last _ _ 0 lt_i last_i) h_r /= BE.
Qed.

End MergeSnplistsBlocks.

Section MergeSnplistsBlocksExample.

Import Np Io IoExample MergeRows.

Local Open Scope ring_scope.

Lemma example_merge_ok :
  exists result h',
    merge_snplists_defaults store [:: 0; 1]%N sumstats = Ok (result, h').
Proof.
have : is_ok (merge_snplists_defaults store [:: 0; 1]%N sumstats)
  by vm_compute.
move: (merge_snplists_defaults _ _ _) => [[result h']|e] // _.
by exists result, h'.
Qed.

Lemma merge_snplists_idempotent_witness :
  exists result h',
    merge_snplists_defaults store [:: 0; 1]%N sumstats = Ok (result, h')
    /\ merge_snplists_defaults h' [:: 0; 1]%N sumstats = Ok (result, h').
Proof.
have [result [h' mergeE]] := example_merge_ok.
exists result, h'; split; first exact: mergeE.
exact: (merge_snplists_idempotent mergeE).
Defined.



Lemma merge_snplists_no_rows_witness :
  exists result h',
    [/\ merge_snplists_defaults store [:: 0; 1]%N (Frame [:: "SNP"%string] [::])
        = Ok (result, h'),
        result = [:: [::]; [::]]
      & omap (@_which_indices unit) (onth h' 1%N) = Some (Some [::])].
Proof.
have : is_ok (merge_snplists_defaults store [:: 0; 1]%N
                (Frame [:: "SNP"%string] [::])) by vm_compute.
case mergeE: (merge_snplists_defaults _ _ _) => [[result h']|e] ok;
  last discriminate ok.
have [resE h'E] :=
  @merge_snplists_no_rows unit store h' [:: 0; 1]%N
    (Frame [:: "SNP"%string] [::]) "SNP" "A1" "A2" false "CHR" "POS" ""
    result (erefl _) mergeE.
exists result, h'; split; [exact: erefl | exact: resE |].
rewrite (h'E 1%N _ isT (erefl _)); exact: erefl.
Defined.

End MergeSnplistsBlocksExample.

(** ** [load_ldgm] then [merge_snplists]; symmetries of [merge_alleles] *)

Section LoadThenMerge.

Import Np Sparse Io LoadLdgm MergeRows.

Variable F : fieldType.

Local Open Scope ring_scope.

(** X11.  When every operator of the store comes from [load_ldgm], after
    [merge_snplists] every operator of the list has a [_which_indices]
    whose entries are rows of its matrix, and the operators that are not in
    the list still have none. *)
Theorem load_then_merge_rows (h h' : heap (csr_matrix F))
    (precision_ops : seq nat) (sumstats : DataFrame)
    (variant_id_col ref_allele_col alt_allele_col : string)
    (match_by_position : bool) (chr_col pos_col table_format : string)
    (result : seq (seq merged_row)) (r : nat)
    (o' : PrecisionOperator (csr_matrix F)) :
  (forall r o, onth h r = Some o ->
     exists edgelist snplist, load_ldgm edgelist snplist = Ok o) ->
  merge_snplists h precision_ops sumstats variant_id_col ref_allele_col
    alt_allele_col match_by_position chr_col pos_col table_format
  = Ok (result, h') ->
  onth h' r = Some o' ->
  match _which_indices o' with
  | Some w =>
      r \in precision_ops
      /\ all (fun x => (0 <= x) && (x < Posz (shape (matrix o')).1)) w
  | None => r \notin precision_ops
  end.
Proof.
move=> loaded; rewrite merge_snplistsE; cbv zeta; case: ifP => // _ [_ <-].
case: (boolP (r \in precision_ops)) => [|notin]; last first.
  rewrite (assign_loop_frame _ _ 0 notin) => /loaded[e [s]].
  by case/load_ldgm_ok=> A [_ _ _ _ ->].
case/last_occurrence=> i [lt_i <- last_i].
rewrite (assign_loop_last _ _ 0 lt_i last_i) add0n /get_variant_info.
case h_r: (onth h _) => [o|] //= [<-] /=; split=> //.
have [e [s /load_ldgm_variants_in_range in_range]] := loaded _ _ h_r.
rewrite indices_block_merge all_flatten_seq all_map.
elim: (variant_info o) in_range => //= v vi IH /andP[v_in /IH ->].
by rewrite andbT all_nseq v_in orbT.
Qed.

End LoadThenMerge.

Section LoadThenMergeExample.

Import Np Sparse Io IoExample LoadLdgm.

Local Open Scope ring_scope.

Lemma load_then_merge_rows_witness :
  exists op result h' o',
    [/\ load_ldgm edgelist snplist = Ok op,
        merge_snplists_defaults [:: op] [:: 0%N] sumstats = Ok (result, h'),
        onth h' 0%N = Some o'
      & if _which_indices o' is Some w
        then all (fun x => (0 <= x) && (x < Posz (shape (matrix o')).1)) w
        else false].
Proof.
have one (e : seq (int * int * rat)) s x : load_ldgm e s = Ok x ->
    forall r o, onth [:: x] r = Some o -> exists e s, load_ldgm e s = Ok o.
  move=> ex [|r] o /=; last by case: r.
  by case=> <-; exists e, s.
have [op [A [loadE _ _ _ _]]] := example_load_ldgm_rows.
have loaded := one _ _ _ loadE.
move: loadE loaded; move: (load_ldgm edgelist snplist) => x loadE loaded.
exists op; rewrite /merge_snplists_defaults.
case mergeE: (merge_snplists [:: op] [:: 0%N] sumstats "SNP" "A1" "A2" false
                "CHR" "POS" "") => [[result h']|e]; last first.
  have := merge_snplistsE [:: op] [:: 0%N] sumstats "SNP" "A1" "A2" false
            "CHR" "POS" "".
  by cbv zeta; rewrite mergeE.
have [o' h'0] : exists o', onth h' 0%N = Some o'.
  have := merge_snplistsE [:: op] [:: 0%N] sumstats "SNP" "A1" "A2" false
            "CHR" "POS" "".
  cbv zeta; rewrite mergeE.
  have -> : ((if lower "" == "vcf"%string then "ID"%string else "SNP"%string)
               \in columns sumstats) = true by vm_compute.
  by case=> _ -> /=; eexists.
exists result, h', o'; split=> //.
have := load_then_merge_rows loaded mergeE h'0.
by case: (_which_indices o') => [w []|].
Defined.

End LoadThenMergeExample.

Section MergeAllelesSymmetry.

Import Np Io.

Local Open Scope ring_scope.

Lemma nth_merge_alleles (anc der ref alt : seq cell) (i : nat) :
  size der = size anc -> size ref = size anc -> size alt = size anc ->
  nth 0 (merge_alleles anc der ref alt) i =
  if (i < size anc)%N
  then row_phase (nth (CInt 0) anc i) (nth (CInt 0) der i)
         (nth (CInt 0) ref i) (nth (CInt 0) alt i)
  else 0.
Proof.
move=> sd sr st; rewrite merge_allelesE //.
have sz : size (zip (zip anc der) (zip ref alt)) = size anc.
  by rewrite !size_zip sd sr st !minnn.
case: ltnP => [lt_i|le_i]; last by rewrite nth_default // size_map sz.
rewrite (nth_map (CInt 0, CInt 0, (CInt 0, CInt 0))) ?sz //.
by rewrite !nth_zip ?size_zip ?sd ?sr ?st.
Qed.

Lemma size_merge_alleles (anc der ref alt : seq cell) :
  size der = size anc -> size ref = size anc -> size alt = size anc ->
  size (merge_alleles anc der ref alt) = size anc.
Proof.
by move=> sd sr st; rewrite merge_allelesE // size_map !size_zip sd sr st !minnn.
Qed.

(** X12.  The phase [merge_alleles] computes does not change when the two
    sources are exchanged, nor when both pairs of alleles are swapped;
    swapping the alleles of one source alone negates the phase of every
    row whose ancestral and derived alleles differ (up to case). *)
Theorem merge_alleles_symmetry (anc der ref alt : seq cell) :
  size der = size anc -> size ref = size anc -> size alt = size anc ->
  [/\ merge_alleles ref alt anc der = merge_alleles anc der ref alt,
      merge_alleles der anc alt ref = merge_alleles anc der ref alt
    & forall i, (i < size anc)%N ->
        lower (astype_str (nth (CInt 0) anc i))
        != lower (astype_str (nth (CInt 0) der i)) ->
        nth 0 (merge_alleles anc der alt ref) i
        = - nth 0 (merge_alleles anc der ref alt) i].
Proof.
move=> sd sr st; split.
- apply: (@eq_from_nth _ 0) => [|i _].
    by rewrite !size_merge_alleles ?sr ?st ?sd.
  rewrite !nth_merge_alleles ?sr ?st ?sd // /row_phase.
  rewrite ![lower (astype_str (nth _ ref i)) == _]eq_sym.
  rewrite ![lower (astype_str (nth _ alt i)) == _]eq_sym.
  by rewrite [X in if X then -1 else _]andbC.
- apply: (@eq_from_nth _ 0) => [|i _].
    by rewrite !size_merge_alleles ?sr ?st ?sd.
  rewrite !nth_merge_alleles ?sr ?st ?sd // /row_phase.
  by rewrite [X in if X then -1 else _]andbC [X in if X then 1 else _]andbC.
move=> i lt_i ne_ad; rewrite !nth_merge_alleles ?lt_i // /row_phase.
set a := lower (astype_str (nth _ anc i)) in ne_ad *.
set d := lower (astype_str (nth _ der i)) in ne_ad *.
set r := lower (astype_str (nth _ ref i)).
set t := lower (astype_str (nth _ alt i)).
case: (boolP ((a == r) && (d == t))) => [/andP[/eqP ar /eqP dt]|_];
  case: (boolP ((a == t) && (d == r))) => [/andP[/eqP at_ /eqP dr]|_];
  rewrite ?opprK ?oppr0 //.
by rewrite ar -dr eqxx in ne_ad.
Qed.

Lemma merge_alleles_symmetry_witness :
  nth 0 (merge_alleles [:: CStr "A"] [:: CStr "c"] [:: CStr "a"] [:: CStr "C"]) 0
  = - nth 0 (merge_alleles [:: CStr "A"] [:: CStr "c"] [:: CStr "C"] [:: CStr "a"]) 0.
Proof.
have [_ _ swap] := @merge_alleles_symmetry [:: CStr "A"] [:: CStr "c"]
                     [:: CStr "C"] [:: CStr "a"] erefl erefl erefl.
exact: (swap 0%N isT isT).
Defined.

End MergeAllelesSymmetry.

(** ** [load_ldgm]: the search pattern of the [.snplist] file *)

Section SnplistPattern.

Import Paths.

Lemma split_dot_head_no_dot (s : string) : has_dot (split_dot_head s) = false.
Proof.
by elim: s => //= c s IH; case E: (Ascii.eqb c ".") => //=; rewrite E.
Qed.

Lemma endswith_dot (s x : string) :
  endswith s (String "."%char x) -> has_dot s.
Proof.
by elim: s => [|c s IH] //= /orP[/eqP[-> _]|/IH ->]; rewrite ?orbT.
Qed.

(** X15.  The pattern under which [load_ldgm] looks for the [.snplist]
    file is what stands before the first dot of the edge list's stem,
    followed by [*.snplist]: it holds no dot, so the test of line 51 never
    holds, and the pattern does not depend on [population]. *)
Theorem snplist_pattern_population (stem : string)
    (population : option string) :
  [/\ snplist_pattern stem population
      = (split_dot_head stem ++ "*.snplist")%string,
      has_dot (split_dot_head stem) = false,
      endswith (split_dot_head stem)
        (String "."%char (format_option population)) = false
    & forall population',
        snplist_pattern stem population' = snplist_pattern stem population].
Proof.
have no_suffix p :
    endswith (split_dot_head stem) (String "."%char (format_option p)) = false.
  apply/negP=> /endswith_dot.
  by rewrite split_dot_head_no_dot.
by split=> // [||p]; rewrite /snplist_pattern ?no_suffix ?split_dot_head_no_dot.
Qed.

End SnplistPattern.

Section SharedDataFacts.

Import Multiprocessing.

Variable V : Type.
Variable zero : V.

Lemma write_sliceP (a : seq V) (start stop : nat) (value a' : seq V) :
  write_slice a start stop value = Ok a' ->
  [/\ start <= stop, stop <= size a, size value = stop - start,
      a' = take start a ++ value ++ drop stop a & size a' = size a].
Proof.
rewrite /write_slice; case: ifP => // /andP[/andP[le_ss le_sa] /eqP sz_v] [<-].
have le_s : start <= size a by apply: leq_trans le_sa.
split=> //; rewrite !size_cat size_take_min (minn_idPl le_s) size_drop sz_v.
by rewrite addnA subnKC // subnKC.
Qed.

Lemma nth_write_slice (a : seq V) (start stop : nat) (value a' : seq V) p :
  write_slice a start stop value = Ok a' ->
  nth zero a' p =
  if start <= p < stop then nth zero value (p - start) else nth zero a p.
Proof.
case/write_sliceP=> le_ss le_sa sz_v -> _.
have le_s : start <= size a by apply: leq_trans le_sa.
rewrite !nth_cat size_take_min (minn_idPl le_s) sz_v.
case: (ltnP p start) => [lt_p|le_p] /=; first by rewrite nth_take.
rewrite ltn_subLR //= subnKC //; case: (ltnP p stop) => // le_stop.
by rewrite nth_drop -subnDA subnKC // subnKC.
Qed.

Lemma getitem_setitem (sd sd' : SharedData V) key start stop value :
  setitem sd key start stop value = Ok sd' ->
  exists a a', [/\ getitem sd key = Ok a, getitem sd' key = Ok a',
                   write_slice a start stop value = Ok a'
                 & forall k, k != key -> getitem sd' k = getitem sd k].
Proof.
elim: sd sd' => [|[k a] sd IH] sd' //=.
case: (eqVneq k key) => [eq_k|ne_k].
  case ws: (write_slice _ _ _ _) => [a'|] //= [<-].
  exists a, a'; split; rewrite //= ?eq_k ?eqxx // => k' ne_k'.
  by rewrite eq_sym (negbTE ne_k').
case si: (setitem _ _ _ _ _) => [sd''|] //= [<-].
have [a0 [a0' [g g' ws frame]]] := IH _ si.
exists a0, a0'; split; rewrite //= ?(negbTE ne_k) // => k' ne_k'.
by rewrite frame.
Qed.

End SharedDataFacts.

Section BlupFacts.

Import Np Multiprocessing Blup.

Variable V : Type.
Variable zero : V.
Variables Row Metadata Ldgm : Type.
Variable partition_variants : Metadata -> seq Row -> seq (seq Row).
Variable blup_solve :
  Ldgm -> seq Row -> V -> V -> bool -> result (seq nat * seq V).

Notation prepare_block_data := (prepare_block_data partition_variants).
Notation process_block := (process_block zero blup_solve).
Notation block_values := (block_values zero blup_solve).
Notation index_assign := (index_assign zero).

Lemma foldl_addn (a : nat) (s : seq nat) : foldl addn a s = a + sumn s.
Proof. by elim: s a => [|x s IH] a /=; rewrite ?addn0 // IH addnA. Qed.

Lemma prepare_block_dataE (metadata : Metadata) (sumstats : seq Row) :
  let blocks := partition_variants metadata sumstats in
  prepare_block_data metadata sumstats =
  [seq (nth [::] blocks b, sumn [seq size df | df <- take b blocks])
  | b <- iota 0 (size blocks)].
Proof.
rewrite /Blup.prepare_block_data /cumsum /but_last; cbv zeta.
set blocks := partition_variants _ _; rewrite size_scanl size_map.
have sz : size (zip blocks (0 :: take (size blocks).-1
                   (scanl addn 0 [seq size df | df <- blocks]))) = size blocks.
  rewrite size_zip /= size_take size_scanl size_map.
  by case: (size blocks) => [|n] //=; rewrite ltnSn minnn.
apply: (@eq_from_nth _ ([::], 0)); rewrite sz ?size_map ?size_iota // => b lt_b.
rewrite nth_zip_cond sz lt_b (nth_map 0) ?size_iota // nth_iota // add0n.
congr (_, _); case: b lt_b => [|b] lt_b /=; first by rewrite take0.
rewrite nth_take ?ltn_predRL //.
rewrite (nth_scanl 0) ?size_map; first exact: ltnW.
by rewrite foldl_addn add0n map_take.
Qed.

Lemma process_blockE (ldgm : Ldgm) (flag : nat) (sd : SharedData V)
    (block_offset : nat) (df : seq Row) (off : nat) wp :
  process_block ldgm flag sd block_offset (df, off) wp =
  let* v := block_values ldgm df wp in
  setitem sd "beta" off (off + size df) v.
Proof.
rewrite /Blup.process_block /Blup.block_values.
case: wp => [[[sigmasq|z] sample_size] mbp] //=.
by case: (blup_solve _ _ _ _ _) => [[idx vals]|e].
Qed.

Lemma index_assignP (a : seq V) (idx : seq nat) (vals a' : seq V) :
  index_assign a idx vals = Ok a' ->
  size a' = size a /\ forall i, i \notin idx -> nth zero a' i = nth zero a i.
Proof.
rewrite /Blup.index_assign; case: ifP => // /negbFE/eqP sz.
case: ifP => // /negbFE in_range [<-].
elim: idx vals a sz in_range => [|i idx IH] [|v vals] a //= [sz].
case/andP=> lt_i in_range.
have sz_set : size (set_nth zero a i v) = size a.
  by rewrite size_set_nth; apply/maxn_idPr.
have [|sz' frame] := IH vals (set_nth zero a i v) sz; first by rewrite sz_set.
split=> [|j]; first by rewrite sz' sz_set.
rewrite inE negb_or => /andP[ne_j notin]; rewrite frame // nth_set_nth /=.
by rewrite (negbTE ne_j).
Qed.

Lemma size_block_values (ldgm : Ldgm) (df : seq Row) wp (v : seq V) :
  block_values ldgm df wp = Ok v -> size v = size df.
Proof.
rewrite /Blup.block_values; case: wp => [[[sigmasq|z] sample_size] mbp] //=.
case: (blup_solve _ _ _ _ _) => [[idx vals]|e] //= /index_assignP[-> _].
by rewrite size_nseq.
Qed.

Lemma sumn_take_leq (s : seq nat) (i j : nat) :
  i <= j -> sumn (take i s) <= sumn (take j s).
Proof.
elim: s i j => [|x s IH] [|i] [|j] //= le_ij.
by rewrite leq_add2l IH.
Qed.

Lemma sumn_takeS (s : seq nat) (b : nat) :
  b < size s -> sumn (take b.+1 s) = sumn (take b s) + nth 0 s b.
Proof. by move=> lt_b; rewrite (take_nth 0) // sumn_rcons. Qed.

(** C2.  [prepare_block_data] pairs every block of the partition with the
    sum of the lengths of the blocks before it; the ranges
    [offset, offset + len) of two distinct blocks share no position
    (blocks of length zero included); and a call of [process_block] that
    returns leaves the ['beta'] array, outside the block's range, and every
    other array as they were. *)
Theorem block_ranges_disjoint (metadata : Metadata) (sumstats : seq Row) :
  let blocks := partition_variants metadata sumstats in
  let block_data := prepare_block_data metadata sumstats in
  let start b := (nth ([::], 0) block_data b).2 in
  let stop b := start b + size (nth ([::], 0) block_data b).1 in
  [/\ size block_data = size blocks,
      forall b, b < size blocks ->
        nth ([::], 0) block_data b =
        (nth [::] blocks b, sumn [seq size df | df <- take b blocks]),
      forall b b' p, b < size blocks -> b' < size blocks -> b != b' ->
        ~~ ((start b <= p < stop b) && (start b' <= p < stop b'))
    & forall b ldgm flag sd block_offset wp sd' arr,
        b < size blocks ->
        process_block ldgm flag sd block_offset (nth ([::], 0) block_data b) wp
          = Ok sd' ->
        getitem sd "beta" = Ok arr ->
        exists arr',
          [/\ getitem sd' "beta" = Ok arr', size arr' = size arr,
              forall p, ~~ (start b <= p < stop b) ->
                nth zero arr' p = nth zero arr p
            & forall k, k != "beta"%string -> getitem sd' k = getitem sd k]].
Proof.
move=> blocks block_data start stop.
have nthE b : b < size blocks ->
    nth ([::], 0) block_data b =
    (nth [::] blocks b, sumn [seq size df | df <- take b blocks]).
  move=> lt_b; rewrite /block_data prepare_block_dataE -/blocks.
  by rewrite (nth_map 0) ?size_iota // nth_iota.
have stopE b : b < size blocks ->
    stop b = sumn [seq size df | df <- take b.+1 blocks].
  move=> lt_b; rewrite /stop /start nthE //= !map_take sumn_takeS ?size_map //.
  by rewrite (nth_map [::]).
have ordered b b' : b < b' -> b' < size blocks -> stop b <= start b'.
  move=> lt_bb' lt_b'; rewrite stopE ?(ltn_trans lt_bb') // /start nthE //=.
  by rewrite !map_take sumn_take_leq.
split=> //.
- by rewrite /block_data prepare_block_dataE size_map size_iota.
- move=> b b' p lt_b lt_b' ne_bb'; apply/negP.
  case/andP=> /andP[le_b lt_pb] /andP[le_b' lt_pb'].
  case: (ltngtP b b') ne_bb' => // [lt_bb'|lt_b'b] _.
    have := leq_trans lt_pb (ordered _ _ lt_bb' lt_b').
    by rewrite ltnNge le_b'.
  have := leq_trans lt_pb' (ordered _ _ lt_b'b lt_b).
  by rewrite ltnNge le_b.
- move=> b ldgm flag sd block_offset wp sd' arr lt_b.
  rewrite /stop /start nthE //= process_blockE.
  case bv: (block_values _ _ _) => [v|] //= /getitem_setitem.
  case=> a [a'] [get_a get_a' ws frame]; rewrite get_a => -[<-].
  exists a'; split=> // [|p out].
    by have [] := write_sliceP ws.
  by rewrite (nth_write_slice zero _ ws) (negbTE out).
Qed.

End BlupFacts.

Section PoolFacts.

Import Multiprocessing.

Variable V : Type.
Variable zero : V.
Variable lens : seq nat.
Variable value : nat -> result (seq V).
Variable task : nat -> SharedData V -> result (SharedData V).
Hypothesis value_size : forall b v, value b = Ok v -> size v = nth 0 lens b.
Hypothesis task_spec :
  forall b sd, b < size lens -> task b sd = slice_task lens value b sd.

Notation n_blocks := (size lens).
Notation segment := (segment zero lens value).
Notation buffer := (buffer zero lens value).
Notation pool_inv := (pool_inv zero lens value).
Notation step := (step task n_blocks).
Notation steps := (steps task n_blocks).

Lemma size_segment (fl : seq bool) (b : nat) :
  size (segment fl b) = nth 0 lens b.
Proof.
rewrite /Multiprocessing.segment; case: ifP => _; last by rewrite size_nseq.
by case vb: (value b) => [v|e]; rewrite ?size_nseq // (value_size vb).
Qed.

Lemma shape_segments (fl : seq bool) :
  shape [seq segment fl b | b <- iota 0 n_blocks] = lens.
Proof.
rewrite /shape -map_comp; apply: (@eq_from_nth _ 0).
  by rewrite size_map size_iota.
move=> b; rewrite size_map size_iota => lt_b.
by rewrite (nth_map 0) ?size_iota // nth_iota //= size_segment.
Qed.

(** Writing the [b]-th of the segments an array is made of. *)
Lemma write_flatten (segs : seq (seq V)) (b : nat) (v : seq V) :
  b < size segs -> size v = size (nth [::] segs b) ->
  write_slice (flatten segs) (sumn (take b (shape segs)))
    (sumn (take b (shape segs)) + size (nth [::] segs b)) v =
  Ok (flatten (set_nth [::] segs b v)).
Proof.
move=> lt_b sz_v.
have sz_take : size (flatten (take b segs)) = sumn (take b (shape segs)).
  by rewrite size_flatten /shape map_take.
have segsE : flatten segs =
    flatten (take b segs) ++ nth [::] segs b ++ flatten (drop b.+1 segs).
  by rewrite -{1}(cat_take_drop b segs) (drop_nth [::]) // flatten_cat.
rewrite set_nthE lt_b flatten_cat /= segsE -sz_take /write_slice.
rewrite leq_addr !size_cat addnA leq_addr /= addKn sz_v eqxx.
by rewrite take_size_cat // drop_cat ltnNge leq_addr /= addKn drop_size_cat.
Qed.

Lemma set_nth_segments (fl : seq bool) (b : nat) (v : seq V) :
  b < n_blocks -> value b = Ok v ->
  set_nth [::] [seq segment fl b' | b' <- iota 0 n_blocks] b v =
  [seq segment (set_nth false fl b true) b' | b' <- iota 0 n_blocks].
Proof.
move=> lt_b vb; apply: (@eq_from_nth _ [::]).
  by rewrite size_set_nth !size_map size_iota; apply/maxn_idPr.
move=> b'; rewrite size_set_nth size_map size_iota (maxn_idPr lt_b) => lt_b'.
rewrite nth_set_nth /= !(nth_map 0) ?size_iota // nth_iota // add0n.
rewrite /Multiprocessing.segment nth_set_nth /=.
by case: eqP => [->|//]; rewrite vb.
Qed.

Lemma nth_flatten_segment (segs : seq (seq V)) (b i : nat) :
  b < size segs -> i < size (nth [::] segs b) ->
  nth zero (flatten segs) (sumn (take b (shape segs)) + i) =
  nth zero (nth [::] segs b) i.
Proof.
move=> lt_b lt_i.
rewrite -{1}(cat_take_drop b segs) (drop_nth [::]) // flatten_cat /=.
have -> : sumn (take b (shape segs)) = size (flatten (take b segs)).
  by rewrite size_flatten /shape map_take.
by rewrite nth_cat ltnNge leq_addr /= addKn nth_cat lt_i.
Qed.

Lemma size_buffer (fl : seq bool) : size (buffer fl) = sumn lens.
Proof. by rewrite /Multiprocessing.buffer size_flatten shape_segments. Qed.

Lemma nth_buffer (fl : seq bool) (b i : nat) :
  b < n_blocks -> i < nth 0 lens b ->
  nth zero (buffer fl) (offset lens b + i) = nth zero (segment fl b) i.
Proof.
move=> lt_b lt_i.
have := @nth_flatten_segment [seq segment fl b' | b' <- iota 0 n_blocks] b i.
rewrite size_map size_iota shape_segments (nth_map 0) ?size_iota //.
by rewrite nth_iota // add0n size_segment; apply.
Qed.

Lemma task_buffer (fl : seq bool) (b : nat) (v : seq V) :
  b < n_blocks -> value b = Ok v ->
  task b [:: ("beta"%string, buffer fl)] =
  Ok [:: ("beta"%string, buffer (set_nth false fl b true))].
Proof.
move=> lt_b vb; rewrite task_spec // /slice_task vb /= /Multiprocessing.buffer.
have := @write_flatten [seq segment fl b' | b' <- iota 0 n_blocks] b v.
rewrite size_map size_iota shape_segments (nth_map 0) ?size_iota //.
rewrite nth_iota // add0n size_segment (value_size vb) /offset.
by move=> -> //; rewrite set_nth_segments.
Qed.

Lemma task_raise (sd : SharedData V) (b : nat) (e : exn) :
  b < n_blocks -> value b = Raise e -> task b sd = Raise e.
Proof. by move=> lt_b; rewrite task_spec // /slice_task => ->. Qed.

Lemma task_ok_value (sd sd' : SharedData V) (b : nat) :
  b < n_blocks -> task b sd = Ok sd' -> exists v, value b = Ok v.
Proof.
move=> lt_b; rewrite task_spec // /slice_task.
by case: (value b) => // v _; exists v.
Qed.

Lemma count_holds_set (ws : seq worker) (w : nat) (x : worker) (b : nat) :
  w < size ws ->
  count (holds b) (set_nth Terminated ws w x) + holds b (nth Terminated ws w)
  = count (holds b) ws + holds b x.
Proof.
elim: ws w => [|y ws IH] [|w] //= lt_w; first by rewrite -!plusE; lia.
by rewrite -!addnA IH.
Qed.

Lemma flatten_zeros (s : seq nat) :
  flatten [seq nseq x zero | x <- s] = nseq (sumn s) zero.
Proof. by elim: s => [|x s IH] //=; rewrite IH nseqD. Qed.

Lemma buffer_zeros : buffer (nseq n_blocks false) = nseq (sumn lens) zero.
Proof.
rewrite -flatten_zeros /Multiprocessing.buffer; congr flatten.
apply: (@eq_from_nth _ [::]); rewrite !size_map size_iota // => b lt_b.
rewrite (nth_map 0) ?size_iota // nth_iota // add0n (nth_map 0) //.
by rewrite /Multiprocessing.segment nth_nseq lt_b.
Qed.

Lemma pool_inv_init (num_processes : nat) :
  pool_inv num_processes
    (start_workers n_blocks num_processes
       (shared_data_new zero [:: ("beta"%string, sumn lens)])).
Proof.
split; rewrite /= ?size_nseq ?buffer_zeros // => b.
  by rewrite count_nseq nth_nseq /=; case: ifP.
by rewrite nth_nseq; case: ifP.
Qed.

Lemma held_below_cursor (num_processes : nat) (m : manager V) (w b : nat) :
  pool_inv num_processes m ->
  w < size (workers m) -> holds b (nth Terminated (workers m) w) ->
  [/\ b < cursor m, b < n_blocks, nth false (flags m) b = false
    & count (holds b) (workers m) = 1].
Proof.
case=> le_c [sz_f sz_w] tokens _ _ lt_w held.
have := count_holds_set Idle b lt_w; rewrite held /= addn0 addn1 => cnt.
have := tokens b; rewrite -cnt => tok.
have lt_bc : b < cursor m.
  by move: tok; case: (b < cursor m) => //; rewrite addn1.
move: tok; rewrite lt_bc; case fb: (nth false (flags m) b) => /=.
  by rewrite !addn1.
rewrite addn0 => cnt1; split=> //.
exact: leq_trans lt_bc le_c.
Qed.

Lemma pool_inv_step (num_processes : nat) (m m' : manager V) :
  pool_inv num_processes m -> step m m' -> pool_inv num_processes m'.
Proof.
move=> inv st; have [le_c [sz_f sz_w] tokens flags_ok sh] := inv.
case: st inv => {m m' le_c sz_f sz_w tokens flags_ok sh} m w.
- move=> idle lt_w lt_c [le_c [sz_f sz_w] tokens flags_ok sh].
  split; rewrite //= ?size_set_nth ?(maxn_idPr lt_w) // => b.
  have := count_holds_set (Working (cursor m)) b lt_w; rewrite idle /= addn0.
  move=> ->; rewrite addnAC tokens ltnS [b <= _]leq_eqVlt eq_sym.
  by case: ltngtP.
- move=> b sd working lt_w task_ok inv.
  have [le_c [sz_f sz_w] tokens flags_ok sh] := inv.
  have [] := @held_below_cursor _ _ _ b inv lt_w; first by rewrite working /= eqxx.
  move=> lt_bc lt_bn fb cnt.
  have [v vb] := task_ok_value lt_bn task_ok.
  split; rewrite //= ?size_set_nth ?(maxn_idPr lt_w) ?sz_f ?(maxn_idPr lt_bn) //.
  + move=> b'; rewrite nth_set_nth /=.
    have := count_holds_set Idle b' lt_w; rewrite working /= addn0.
    case: (eqVneq b b') => [<-|ne_b]; last first.
      by rewrite addn0 => ->; apply: tokens.
    by move=> ->; rewrite cnt lt_bc.
  + move=> b'; rewrite nth_set_nth /=; case: eqP => [->|_]; last exact: flags_ok.
    by rewrite vb.
  + by move: task_ok; rewrite sh (task_buffer _ lt_bn vb) => -[<-].
- move=> b e working lt_w _ [le_c [sz_f sz_w] tokens flags_ok sh].
  split; rewrite //= ?size_set_nth ?(maxn_idPr lt_w) // => b'.
  have := count_holds_set (Failed b) b' lt_w; rewrite working /= => /addIn ->.
  exact: tokens.
- move=> b working lt_w [le_c [sz_f sz_w] tokens flags_ok sh].
  split; rewrite //= ?size_set_nth ?(maxn_idPr lt_w) // => b'.
  have := count_holds_set (Failed b) b' lt_w; rewrite working /= => /addIn ->.
  exact: tokens.
- move=> idle lt_w le_nc [le_c [sz_f sz_w] tokens flags_ok sh].
  split; rewrite //= ?size_set_nth ?(maxn_idPr lt_w) // => b'.
  have := count_holds_set Terminated b' lt_w; rewrite idle /= => /addIn ->.
  exact: tokens.
Qed.

Lemma pool_inv_steps (num_processes : nat) (m m' : manager V) :
  pool_inv num_processes m -> steps m m' -> pool_inv num_processes m'.
Proof.
move=> inv st; elim: st inv => {m m'} // m1 m2 m3 _ IH st inv.
exact: pool_inv_step (IH inv) st.
Qed.

(** *** Complete runs *)

Lemma prefix_flags0 : prefix_flags lens 0 = nseq n_blocks false.
Proof.
apply: (@eq_from_nth _ false); rewrite size_map size_iota ?size_nseq // => b lt_b.
by rewrite (nth_map 0) ?size_iota // nth_nseq lt_b.
Qed.

Lemma prefix_flags_all : prefix_flags lens n_blocks = nseq n_blocks true.
Proof.
apply: (@eq_from_nth _ false); rewrite size_map size_iota ?size_nseq // => b lt_b.
by rewrite (nth_map 0) ?size_iota // nth_iota // add0n nth_nseq lt_b.
Qed.

Lemma prefix_flagsS (k : nat) :
  k < n_blocks ->
  set_nth false (prefix_flags lens k) k true = prefix_flags lens k.+1.
Proof.
move=> lt_k; apply: (@eq_from_nth _ false).
  by rewrite size_set_nth !size_map size_iota; apply/maxn_idPr.
move=> b; rewrite size_set_nth size_map size_iota (maxn_idPr lt_k) => lt_b.
rewrite nth_set_nth /= !(nth_map 0) ?size_iota // nth_iota // add0n ltnS.
by rewrite [RHS]leq_eqVlt; case: eqP.
Qed.

Lemma all_flags_nseq (fl : seq bool) : all id fl -> fl = nseq (size fl) true.
Proof. by elim: fl => [|[] fl IH] //= /IH e; congr cons. Qed.

(** The serial loop over the first [k] blocks. *)
Lemma serial_prefix (k : nat) :
  k <= n_blocks ->
  if all (fun b => is_ok (value b)) (iota 0 k)
  then foldl (fun r b => let* sd := r in task b sd)
         (Ok [:: ("beta"%string, buffer (nseq n_blocks false))]) (iota 0 k)
       = Ok [:: ("beta"%string, buffer (prefix_flags lens k))]
  else exists e,
       foldl (fun r b => let* sd := r in task b sd)
         (Ok [:: ("beta"%string, buffer (nseq n_blocks false))]) (iota 0 k)
       = Raise e.
Proof.
elim: k => [|k IH] lt_k; first by rewrite /= prefix_flags0.
move: (IH (ltnW lt_k)); rewrite -addn1 iotaD add0n all_cat foldl_cat /= andbT.
case: ifP => [_ ->|_ [e ->]] /=; last by exists e.
case vk: (value k) => [v|e] /=; last by exists e; apply: task_raise.
by rewrite (task_buffer _ lt_k vk) prefix_flagsS // addn1.
Qed.

(** A run of one or more workers that writes every block. *)
Lemma pool_run_prefix (num_processes k : nat) (sd0 : SharedData V) :
  0 < num_processes -> k <= n_blocks ->
  sd0 = [:: ("beta"%string, buffer (nseq n_blocks false))] ->
  all (fun b => is_ok (value b)) (iota 0 k) ->
  steps (start_workers n_blocks num_processes sd0)
    (Manager k (nseq num_processes Idle) (prefix_flags lens k)
       [:: ("beta"%string, buffer (prefix_flags lens k))]).
Proof.
case: num_processes => // W _ + ->.
elim: k => [|k IH] lt_k.
  by rewrite prefix_flags0 => _; apply: steps_refl.
rewrite -addn1 iotaD add0n all_cat /= andbT => /andP[ok_k ok].
case vk: (value k) ok => [v|//] _.
apply: steps_step; first apply: steps_step (IH (ltnW lt_k) ok_k) _.
  exact: (@step_claim _ _ _ (Manager _ _ _ _) 0).
have := @step_write _ task n_blocks
  (Manager k.+1 (Working k :: nseq W Idle) (prefix_flags lens k)
     [:: ("beta"%string, buffer (prefix_flags lens k))]) 0 k _ erefl isT
  (task_buffer _ lt_k vk).
by rewrite /= prefix_flagsS // addn1.
Qed.

(** What the buffer holds when every flag is set. *)
Lemma pool_complete (num_processes : nat) (m : manager V) :
  pool_inv num_processes m -> all id (flags m) ->
  all (fun b => is_ok (value b)) (iota 0 n_blocks) /\
  getitem (shared m) "beta" = Ok (buffer (nseq n_blocks true)).
Proof.
case=> _ [sz_f _] _ flags_ok -> /all_flags_nseq; rewrite sz_f => fE.
split; last by rewrite /= -fE.
apply/allP=> b; rewrite mem_iota add0n /= => lt_b.
by apply: flags_ok; rewrite fE nth_nseq lt_b.
Qed.

(** *** Failed workers *)

Lemma failed_step (m m' : manager V) (w b : nat) :
  step m m' -> nth Terminated (workers m) w = Failed b ->
  nth Terminated (workers m') w = Failed b.
Proof.
by case=> {m m'} m w' *; rewrite /= nth_set_nth /=; case: eqP => // eq_w;
   subst w; congruence.
Qed.

Lemma failed_steps (m m' : manager V) (w b : nat) :
  steps m m' -> nth Terminated (workers m) w = Failed b ->
  nth Terminated (workers m') w = Failed b.
Proof.
move=> st; elim: st => {m m'} // m1 m2 m3 _ IH st /IH.
exact: failed_step.
Qed.

Lemma failed_never_complete (num_processes : nat) (m m' : manager V)
    (w b : nat) :
  pool_inv num_processes m ->
  w < size (workers m) -> nth Terminated (workers m) w = Failed b ->
  steps m m' -> ~~ all id (flags m').
Proof.
move=> inv lt_w failed st.
have inv' := pool_inv_steps inv st.
have failed' := failed_steps st failed.
have lt_w' : w < size (workers m').
  by case: inv' => _ [_ ->] _ _ _; case: inv lt_w => _ [_ ->].
have [] := @held_below_cursor _ _ _ b inv' lt_w'; first by rewrite failed' /= eqxx.
move=> _ lt_b fb _; apply/negP=> /all_nthP-/(_ false b).
by case: inv' => _ [-> _] _ _ _ /(_ lt_b); rewrite fb.
Qed.

End PoolFacts.

Section BlupRun.

Import Np Multiprocessing Blup.

Variable V : Type.
Variable zero : V.
Variables Row Metadata Ldgm : Type.
Variables Path Populations Chromosomes : Type.
Variable partition_variants : Metadata -> seq Row -> seq (seq Row).
Variable read_ldgm_metadata : Path -> Populations -> Chromosomes -> Metadata.
Variable load_ldgm : Metadata -> nat -> Ldgm.
Variable blup_solve :
  Ldgm -> seq Row -> V -> V -> bool -> result (seq nat * seq V).
Variable cpu_count : nat.

Notation prepare_block_data := (prepare_block_data partition_variants).
Notation create_shared_memory := (@create_shared_memory V zero Row Metadata).
Notation block_values := (block_values zero blup_solve).
Notation block_task := (block_task zero load_ldgm blup_solve).

Variable metadata : Metadata.
Variable sumstats : seq Row.
Variable worker_params : worker_params_t V.

Let blocks := partition_variants metadata sumstats.
Let block_data := prepare_block_data metadata sumstats.
Let lens := [seq size df | df <- blocks].
Let value (b : nat) : result (seq V) :=
  block_values (load_ldgm metadata b) (nth [::] blocks b) worker_params.

Lemma size_block_data : size block_data = size lens.
Proof.
by rewrite /block_data prepare_block_dataE !size_map size_iota.
Qed.

Lemma nth_block_data (b : nat) :
  b < size lens ->
  nth ([::], 0) block_data b = (nth [::] blocks b, offset lens b).
Proof.
rewrite size_map => lt_b.
rewrite /block_data prepare_block_dataE -/blocks /offset /lens.
by rewrite (nth_map 0) ?size_iota // nth_iota // map_take.
Qed.

Lemma value_size (b : nat) (v : seq V) :
  value b = Ok v -> size v = nth 0 lens b.
Proof.
move=> vb; rewrite (size_block_values vb) /lens.
case: (ltnP b (size blocks)) => [lt_b|le_b]; first by rewrite (nth_map [::]).
by rewrite !nth_default ?size_map.
Qed.

Lemma block_task_spec (b : nat) (sd : SharedData V) :
  b < size lens ->
  block_task metadata block_data worker_params b sd =
  slice_task lens value b sd.
Proof.
move=> lt_b; rewrite /Blup.block_task nth_block_data // process_blockE.
by rewrite /slice_task /value /lens (nth_map [::]) // -(size_map size).
Qed.

Lemma create_shared_memoryE :
  create_shared_memory metadata block_data =
  [:: ("beta"%string, buffer zero lens value (nseq (size lens) false))].
Proof.
rewrite /Blup.create_shared_memory /= buffer_zeros.
rewrite /block_data prepare_block_dataE -/blocks -map_comp /lens.
congr [:: (_, nseq (sumn _) _)].
apply: (@eq_from_nth _ 0); rewrite !size_map size_iota // => b lt_b.
by rewrite (nth_map 0) ?size_iota // (nth_map [::]) // nth_iota.
Qed.

(** The array a complete run leaves in ['beta']. *)
Let final : seq V := buffer zero lens value (nseq (size lens) true).
Let all_ok : bool := all (fun b => is_ok (value b)) (iota 0 (size lens)).

Lemma supervise_complete (num_processes : nat) (out : result (seq V)) :
  supervise (block_task metadata block_data worker_params)
    (size block_data) num_processes
    (create_shared_memory metadata block_data) out ->
  all_ok /\ out = Ok final.
Proof.
rewrite size_block_data create_shared_memoryE => -[m' [[st fl] ->]].
have inv0 := pool_inv_init zero lens value num_processes.
rewrite /= -(buffer_zeros zero lens value) in inv0.
have inv := pool_inv_steps value_size block_task_spec inv0 st.
by have [] := pool_complete inv fl.
Qed.

Lemma supervise_exists (num_processes : nat) :
  0 < num_processes -> all_ok ->
  supervise (block_task metadata block_data worker_params)
    (size block_data) num_processes
    (create_shared_memory metadata block_data) (Ok final).
Proof.
move=> lt_W ok; rewrite size_block_data create_shared_memoryE.
have st := pool_run_prefix value_size block_task_spec lt_W (leqnn _) erefl ok.
eexists; split; first split; first exact: st.
  by rewrite /= prefix_flags_all all_nseq orbT.
by rewrite /= prefix_flags_all.
Qed.

Lemma run_serial_loop :
  if all_ok then
    serial_loop (block_task metadata block_data worker_params)
      (size block_data) (create_shared_memory metadata block_data)
    = Ok [:: ("beta"%string, final)]
  else exists e,
    serial_loop (block_task metadata block_data worker_params)
      (size block_data) (create_shared_memory metadata block_data)
    = Raise e.
Proof.
rewrite size_block_data create_shared_memoryE /serial_loop.
have := serial_prefix zero value_size block_task_spec (leqnn (size lens)).
by rewrite prefix_flags_all.
Qed.

End BlupRun.

Section BlupTheorems.

Import Np Multiprocessing Blup.

Variable V : Type.
Variable zero : V.
Variables Row Metadata Ldgm : Type.
Variables Path Populations Chromosomes : Type.
Variable partition_variants : Metadata -> seq Row -> seq (seq Row).
Variable read_ldgm_metadata : Path -> Populations -> Chromosomes -> Metadata.
Variable load_ldgm : Metadata -> nat -> Ldgm.
Variable blup_solve :
  Ldgm -> seq Row -> V -> V -> bool -> result (seq nat * seq V).
Variable cpu_count : nat.

Notation compute_blup :=
  (compute_blup zero partition_variants read_ldgm_metadata load_ldgm
     blup_solve cpu_count).
Notation block_values := (block_values zero blup_solve).

(** Both schedulers, when they return, return the array made of the blocks'
    [beta_reshaped] arrays in block order, and every block's computation
    has returned. *)
Lemma compute_blup_returns (ldgm_metadata_path : Path) (sumstats : seq Row)
    (sigmasq : pyval V) (sample_size : V) (populations : Populations)
    (chromosomes : Chromosomes) (num_processes : option nat)
    (run_in_serial match_by_position : bool) (out : result (seq V)) :
  let metadata :=
    read_ldgm_metadata ldgm_metadata_path populations chromosomes in
  let blocks := partition_variants metadata sumstats in
  let lens := [seq size df | df <- blocks] in
  let value b :=
    block_values (load_ldgm metadata b) (nth [::] blocks b)
      (sigmasq, sample_size, match_by_position) in
  compute_blup ldgm_metadata_path sumstats sigmasq sample_size populations
    chromosomes num_processes run_in_serial match_by_position out ->
  if all (fun b => is_ok (value b)) (iota 0 (size lens))
  then out = Ok (buffer zero lens value (nseq (size lens) true))
  else run_in_serial /\ exists e, out = Raise e.
Proof.
move=> metadata blocks lens value; rewrite /Blup.compute_blup.
case: run_in_serial => [->|]; last first.
  rewrite /Blup.run -/metadata => sup.
  by have [-> ->] := supervise_complete sup.
rewrite /Blup.run_serial -/metadata.
have := run_serial_loop zero partition_variants load_ldgm blup_solve metadata
          sumstats (sigmasq, sample_size, match_by_position).
rewrite -/blocks -/lens -/value.
by case: ifP => [_ -> //|_ [e ->]] /=; split=> //; exists e.
Qed.




End BlupTheorems.

Section BlupExamples.

Import Multiprocessing Blup BlupExample.

Lemma example_serial :
  compute_blup tt sumstats (PyFloat 1) 1000 tt tt (Some 4) true false (Ok beta).
Proof. by []. Qed.

Lemma example_raised : steps task (size block_data) started raised.
Proof.
have s1 : step task (size block_data) started claimed.
  exact: (@step_claim _ task (size block_data) started 0 erefl isT isT).
have s2 : step task (size block_data) claimed raised.
  exact: (@step_raise _ task (size block_data) claimed 0 0 AssertionError
            erefl isT erefl).
exact: steps_step (steps_step (steps_refl _ _ _) s1) s2.
Qed.

(** The partition of the example: block 1 is paired with offset 3, the
    length of block 0. *)
Lemma block_ranges_disjoint_witness :
  nth ([::], 0) block_data 1 = ([:: 3; 4], 3).
Proof.
have [_ nthE _ _] :=
  @block_ranges_disjoint nat 0 nat (seq (nat * nat)) nat partition_variants
    blup_solve metadata sumstats.
exact: (nthE 1 isT).
Defined.






End BlupExamples.

(** ** [blup.py]: the ranges tile the array; what a block stores *)

Section BlupExtra.

Import Np Multiprocessing Blup.

Variable V : Type.
Variable zero : V.
Variables Row Metadata Ldgm : Type.
Variable partition_variants : Metadata -> seq Row -> seq (seq Row).
Variable blup_solve :
  Ldgm -> seq Row -> V -> V -> bool -> result (seq nat * seq V).

Notation prepare_block_data := (prepare_block_data partition_variants).
Notation create_shared_memory := (@create_shared_memory V zero Row Metadata).
Notation process_block := (process_block zero blup_solve).
Notation index_assign := (index_assign zero).

Lemma sumn_cover (s : seq nat) (p : nat) :
  p < sumn s ->
  exists2 b, b < size s & sumn (take b s) <= p < sumn (take b.+1 s).
Proof.
elim: s p => [|x s IH] p //=.
case: (ltnP p x) => [lt_p _|le_p lt_p]; first by exists 0; rewrite //= take0 /= addn0.
have /IH[b lt_b /andP[lo hi]] : p - x < sumn s by rewrite ltn_subLR.
exists b.+1 => //=; rewrite -(subnKC le_p) leq_add2l ltn_add2l.
by rewrite lo hi.
Qed.

(** X13.  The ranges [prepare_block_data] assigns tile the array
    [create_shared_memory] allocates: the array has one zero for each row
    of each block, the first range starts at 0, each range starts where
    the one before stops, the last stops at the end of the array, and
    every position of the array lies in the range of some block. *)
Theorem block_ranges_tile (metadata : Metadata) (sumstats : seq Row) :
  let blocks := partition_variants metadata sumstats in
  let block_data := prepare_block_data metadata sumstats in
  let total := sumn [seq size df | df <- blocks] in
  let start b := (nth ([::], 0) block_data b).2 in
  let stop b := start b + size (nth ([::], 0) block_data b).1 in
  [/\ getitem (create_shared_memory metadata block_data) "beta"
      = Ok (nseq total zero),
      forall b, b < size blocks -> stop b <= total,
      forall b, b.+1 < size blocks -> start b.+1 = stop b,
      0 < size blocks -> start 0 = 0 /\ stop (size blocks).-1 = total
    & forall p, p < total ->
        exists2 b, b < size blocks & start b <= p < stop b].
Proof.
move=> blocks block_data total start stop.
pose lens := [seq size df | df <- blocks].
have nthE b : b < size blocks ->
    nth ([::], 0) block_data b = (nth [::] blocks b, sumn (take b lens)).
  move=> lt_b; rewrite /block_data prepare_block_dataE -/blocks.
  by rewrite (nth_map 0) ?size_iota // nth_iota // add0n map_take.
have startE b : b < size blocks -> start b = sumn (take b lens).
  by move=> lt_b; rewrite /start nthE.
have stopE b : b < size blocks -> stop b = sumn (take b.+1 lens).
  move=> lt_b; rewrite /stop /start nthE //= sumn_takeS ?size_map //.
  by rewrite (nth_map [::]).
split.
- rewrite /Blup.create_shared_memory /= /block_data prepare_block_dataE.
  rewrite -/blocks -map_comp; congr (Ok (nseq (sumn _) _)).
  apply: (@eq_from_nth _ 0); rewrite !size_map size_iota // => b lt_b.
  by rewrite (nth_map 0) ?size_iota // (nth_map [::]) // nth_iota.
- move=> b lt_b; rewrite stopE // /total -/lens -[X in _ <= sumn X]take_size.
  by apply: sumn_take_leq; rewrite size_map.
- by move=> b lt_b; rewrite startE // stopE // ltnW.
- move=> gt0; rewrite startE // take0 stopE ?prednK // -(size_map size).
  by rewrite take_size; case: (size blocks) gt0.
move=> p /sumn_cover[b]; rewrite size_map => lt_b range.
by exists b; rewrite // startE // stopE.
Qed.


Lemma foldl_set_nth_notin (a : seq V) (idx : seq nat) (vals : seq V) i :
  i \notin idx ->
  nth zero (foldl (fun a x => set_nth zero a x.1 x.2) a (zip idx vals)) i
  = nth zero a i.
Proof.
elim: idx vals a => [|j idx IH] [|v vals] a //=.
rewrite inE negb_or => /andP[ne_i /IH ->].
by rewrite nth_set_nth /= (negbTE ne_i).
Qed.

Lemma foldl_set_nth_last (a : seq V) (idx : seq nat) (vals : seq V) k :
  size idx = size vals -> k < size idx ->
  (forall k', k < k' < size idx -> nth 0 idx k' != nth 0 idx k) ->
  nth zero (foldl (fun a x => set_nth zero a x.1 x.2) a (zip idx vals))
      (nth 0 idx k)
  = nth zero vals k.
Proof.
elim: idx vals a k => [|j idx IH] [|v vals] a [|k] //= [sz] lt_k last_k.
  rewrite foldl_set_nth_notin ?nth_set_nth /= ?eqxx //.
  apply/negP=> /(nthP 0)[k' lt_k' eq_k'].
  by have /= := last_k k'.+1 lt_k'; rewrite eq_k' eqxx.
by apply: IH => // k' lt_k'; apply: (last_k k'.+1).
Qed.


End BlupExtra.

Section BlupExtraExample.

Import Np Multiprocessing Blup BlupExample.


End BlupExtraExample.

